(** * EchoScribe text digest: the pure functions of app.py

    A shallow embedding of the two pure text functions of [app.py], the
    extractive summariser [quick_summarize] and the word-frequency
    tabulator [top_words], together with the Python built-ins and library
    functions they call ([str.split], [str.strip], [re.split],
    [re.findall], [str.lower], [collections.Counter], [sorted], slicing,
    [heapq.nlargest], [str.join]); of the helpers [clean_quotes] and
    [make_txt_bytes] ([str.strip] with an argument, [str.encode]); of the
    loop of [make_docx_bytes] ([str.split] with a separator and
    python-docx's [add_paragraph]); and of what the page does with the
    results: the summary box, the top-words chart and the History list. *)

From Stdlib Require Import String Ascii.
From Stdlib Require Import List ZArith NArith Lia Bool.
From Stdlib Require Import Sorting.Sorted Sorting.Permutation.
Import ListNotations.

Local Open Scope Z_scope.

(** ** Python values *)

Module Py.

(** A Python [str] is a sequence of Unicode code points. *)
Definition char := N.
Definition str := list char.

(** String literals of the development, read as the code points of their
    bytes (the literals used below are all ASCII). *)
Definition lit (s : string) : str :=
  List.map N_of_ascii (list_ascii_of_string s).

Definition char_eqb (a b : char) : bool := N.eqb a b.

Fixpoint str_eqb (a b : str) : bool :=
  match a, b with
  | [], [] => true
  | x :: a', y :: b' => char_eqb x y && str_eqb a' b'
  | _, _ => false
  end.

(** [a < b] on strings: lexicographic on code points. *)
Fixpoint str_ltb (a b : str) : bool :=
  match a, b with
  | _, [] => false
  | [], _ :: _ => true
  | x :: a', y :: b' =>
      if N.ltb x y then true
      else if N.ltb y x then false
      else str_ltb a' b'
  end.

(** [x in xs] for a list of strings. *)
Definition contains (xs : list str) (x : str) : bool :=
  existsb (str_eqb x) xs.

(** [str.isspace] on one code point, which is also what [\s] matches in a
    [str] pattern and what [str.split()] and [str.strip()] cut at:
    U+0009..U+000D, U+001C..U+0020, U+0085, U+00A0, U+1680,
    U+2000..U+200A, U+2028, U+2029, U+202F, U+205F, U+3000. *)
Definition isspace (c : char) : bool :=
  ((9 <=? c) && (c <=? 13) || (28 <=? c) && (c <=? 32)
   || (c =? 133) || (c =? 160) || (c =? 5760)
   || (8192 <=? c) && (c <=? 8202)
   || (c =? 8232) || (c =? 8233) || (c =? 8239) || (c =? 8287)
   || (c =? 12288))%N.

(** The character class [[.!?]]. *)
Definition is_terminal (c : char) : bool :=
  ((c =? 46) || (c =? 33) || (c =? 63))%N.

(** The character class [[A-Za-z']]. *)
Definition is_word_char (c : char) : bool :=
  ((65 <=? c) && (c <=? 90) || (97 <=? c) && (c <=? 122) || (c =? 39))%N.

(** [str.lower] on one code point.  The code only lowers matches of
    [[A-Za-z']+], where lowering moves A..Z to a..z and keeps the rest. *)
Definition lower_char (c : char) : char :=
  (if (65 <=? c) && (c <=? 90) then c + 32 else c)%N.

Definition lower (s : str) : str := List.map lower_char s.

(** Maximal runs of characters satisfying [p], left to right; [cur] holds
    the run being read, last character first. *)
Definition flush (cur : str) : list str :=
  match cur with
  | [] => []
  | _ :: _ => [rev cur]
  end.

Fixpoint runs (p : char -> bool) (cur : str) (s : str) : list str :=
  match s with
  | [] => flush cur
  | c :: s' =>
      if p c then runs p (c :: cur) s'
      else flush cur ++ runs p [] s'
  end.

(** [text.split()]: the maximal runs of non-whitespace. *)
Definition split (text : str) : list str :=
  runs (fun c => negb (isspace c)) [] text.

(** [re.findall(r"[A-Za-z']+", text)]. *)
Definition findall_words (text : str) : list str :=
  runs is_word_char [] text.

Fixpoint lstrip (s : str) : str :=
  match s with
  | [] => []
  | c :: s' => if isspace c then lstrip s' else s
  end.

Definition rstrip (s : str) : str := rev (lstrip (rev s)).

(** [text.strip()]. *)
Definition strip (s : str) : str := rstrip (lstrip s).

(** [re.split(r'(?<=[.!?])\s+', s)].  A match starts at a whitespace
    character whose predecessor is one of [. ! ?] and runs to the end of
    that whitespace run; the pieces between matches are returned, so there
    is always one piece more than there are matches.  [in_sep] says that
    the scan is inside a match, [after_terminal] that the previous
    character is one of [. ! ?]; [cur] is the piece being read, last
    character first. *)
Fixpoint re_split_scan (in_sep after_terminal : bool) (cur : str) (s : str)
  : list str :=
  match s with
  | [] => [rev cur]
  | c :: s' =>
      if isspace c then
        if in_sep then re_split_scan true false [] s'
        else if after_terminal then rev cur :: re_split_scan true false [] s'
        else re_split_scan false false (c :: cur) s'
      else re_split_scan false (is_terminal c) (c :: cur) s'
  end.

Definition re_split_sentences (s : str) : list str :=
  re_split_scan false false [] s.

(** [sep.join(parts)]. *)
Fixpoint join (sep : str) (parts : list str) : str :=
  match parts with
  | [] => []
  | [p] => p
  | p :: rest => p ++ sep ++ join sep rest
  end.

(** [enumerate(xs)], counting from [i]. *)
Fixpoint enumerate_from {A : Type} (i : nat) (xs : list A) : list (nat * A) :=
  match xs with
  | [] => []
  | x :: xs' => (i, x) :: enumerate_from (S i) xs'
  end.

Definition enumerate {A : Type} (xs : list A) : list (nat * A) :=
  enumerate_from 0 xs.

(** The slice [xs[:k]]: the first [k] elements, and for a negative [k] all
    but the last [-k]. *)
Definition slice_to {A : Type} (k : Z) (xs : list A) : list A :=
  if k <? 0 then firstn (length xs - Z.to_nat (- k))%nat xs
  else firstn (Z.to_nat k) xs.

(** [sorted]: a stable sort.  [le x y] says that [x] may stay before [y];
    an element is put before the first element it may stay before, so equal
    elements keep the order they came in. *)
Section Sorting.
Context {A : Type} (le : A -> A -> bool).

Fixpoint insert (x : A) (l : list A) : list A :=
  match l with
  | [] => [x]
  | y :: l' => if le x y then x :: l else y :: insert x l'
  end.

Fixpoint sort (l : list A) : list A :=
  match l with
  | [] => []
  | x :: l' => insert x (sort l')
  end.
End Sorting.

(** [sorted(xs, key=key, reverse=reverse)] for an integer key.  With
    [reverse=True] the result is descending and equal keys still keep
    their original order. *)
Definition sorted_by_key {A : Type} (key : A -> Z) (reverse : bool)
  (xs : list A) : list A :=
  if reverse then sort (fun x y => key y <=? key x) xs
  else sort (fun x y => key x <=? key y) xs.

(** [collections.Counter]: a dict from token to count; a dict keeps its
    keys in the order of their first insertion. *)
Definition counter := list (str * Z).

Fixpoint counter_incr (w : str) (c : counter) : counter :=
  match c with
  | [] => [(w, 1)]
  | (k, v) :: c' =>
      if str_eqb k w then (k, v + 1) :: c' else (k, v) :: counter_incr w c'
  end.

(** [Counter(words)]. *)
Definition Counter (words : list str) : counter :=
  fold_left (fun c w => counter_incr w c) words [].

(** [freq.get(w, default)]. *)
Fixpoint get (c : counter) (w : str) (default : Z) : Z :=
  match c with
  | [] => default
  | (k, v) :: c' => if str_eqb k w then v else get c' w default
  end.

(** [sum(...)] of integers. *)
Definition sum (xs : list Z) : Z := fold_left Z.add xs 0.

(** [max(xs, key=key)]: the first element whose key is the greatest;
    [None] stands for the sentinel returned on an empty input. *)
Definition max_by {A : Type} (key : A -> Z) (xs : list A) : option A :=
  match xs with
  | [] => None
  | x :: xs' =>
      Some (fold_left (fun best y => if key best <? key y then y else best)
              xs' x)
  end.

(** [heapq.nlargest(n, iterable, key=key)] for a sized iterable, branch by
    branch as in CPython's heapq.py.

    The general branch decorates the elements as [(key(elem), order, elem)]
    with [order] counting down from 0, so that of two elements with one key
    the earlier is the greater tuple; no two tuples share their [order], so
    a comparison never reaches [elem].  The heap [result] is kept here as an
    ascending list, which is one of the layouts a binary heap may have:
    [result[0]] is its least tuple and [heapreplace] takes that one out and
    puts the new tuple in.  The code reads the heap only through
    [result[0]] and sorts it at the end, so the layout is not observable. *)
Section Nlargest.
Context {A : Type} (key : A -> Z).

Definition decorated := (Z * Z * A)%type.

(** Tuple comparison [a <= b] on the first two components. *)
Definition decorated_leb (a b : decorated) : bool :=
  let '(ka, oa, _) := a in
  let '(kb, ob, _) := b in
  if ka <? kb then true
  else if kb <? ka then false
  else oa <=? ob.

(** [[(key(elem), i, elem) for i, elem in zip(range(0, -n, -1), it)]],
    on the elements that the zip takes from [it]. *)
Fixpoint decorate (i : Z) (xs : list A) : list decorated :=
  match xs with
  | [] => []
  | x :: xs' => (key x, i, x) :: decorate (i - 1) xs'
  end.

Definition heapify (result : list decorated) : list decorated :=
  sort decorated_leb result.

Definition heapreplace (result : list decorated) (item : decorated)
  : list decorated :=
  insert decorated_leb item (tl result).

(** One round of [for elem in it]; the state is [(result, top, order)].
    [result] is never empty here, so [result[0]] is there. *)
Definition nlargest_step (st : list decorated * Z * Z) (elem : A)
  : list decorated * Z * Z :=
  let '(result, top, order) := st in
  let k := key elem in
  if top <? k then
    let result' := heapreplace result (k, order, elem) in
    let top' := match result' with
                | (k0, _, _) :: _ => k0
                | [] => top
                end in
    (result', top', order - 1)
  else st.

Definition nlargest (n : Z) (xs : list A) : list A :=
  if n =? 1 then
    match max_by key xs with
    | None => []
    | Some x => [x]
    end
  else if Z.of_nat (length xs) <=? n then
    slice_to n (sorted_by_key key true xs)
  else
    let result := decorate 0 (firstn (Z.to_nat n) xs) in
    let it := skipn (Z.to_nat n) xs in
    match heapify result with
    | [] => []
    | ((top, _, _) :: _) as heap =>
        let '(result', _, _) :=
          fold_left nlargest_step it (heap, top, - n) in
        List.map (fun '(_, _, elem) => elem)
          (sort (fun a b => decorated_leb b a) result')
    end.
End Nlargest.

Arguments decorated A : clear implicits.

(** [Counter.most_common(n)] for an integer [n]:
    [heapq.nlargest(n, self.items(), key=itemgetter(1))]. *)
Definition most_common (c : counter) (n : Z) : list (str * Z) :=
  nlargest snd n c.

(** ** Stripping a set of characters, splitting on a separator, UTF-8 *)

(** [s.lstrip(chars)] and [s.strip(chars)]; [p] says which characters
    [chars] holds. *)
Fixpoint lstrip_chars (p : char -> bool) (s : str) : str :=
  match s with
  | [] => []
  | c :: s' => if p c then lstrip_chars p s' else s
  end.

Definition strip_chars (p : char -> bool) (s : str) : str :=
  rev (lstrip_chars p (rev (lstrip_chars p s))).

(** [s.split(sep)] for a separator of one character; [cur] is the piece
    being read, last character first. *)
Fixpoint split_on (sep : char) (cur : str) (s : str) : list str :=
  match s with
  | [] => [rev cur]
  | c :: s' =>
      if char_eqb c sep then rev cur :: split_on sep [] s'
      else split_on sep (c :: cur) s'
  end.

(** [bytes]: a sequence of integers below 256. *)
Definition bytes := list N.

(** The UTF-8 bytes of one code point; [None] where [str.encode("utf-8")]
    raises UnicodeEncodeError, on a surrogate (U+D800..U+DFFF).  A [str] holds
    no code point above U+10FFFF; for such a number the result is [None]
    too. *)
Definition utf8_char (c : char) : option bytes :=
  (if c <? 128 then Some [c]
   else if c <? 2048 then Some [192 + c / 64; 128 + c mod 64]
   else if c <? 65536 then
     if (55296 <=? c) && (c <=? 57343) then None
     else Some [224 + c / 4096; 128 + (c / 64) mod 64; 128 + c mod 64]
   else if c <? 1114112 then
     Some [240 + c / 262144; 128 + (c / 4096) mod 64;
           128 + (c / 64) mod 64; 128 + c mod 64]
   else None)%N.

(** [s.encode("utf-8")]. *)
Fixpoint encode_utf8 (s : str) : option bytes :=
  match s with
  | [] => Some []
  | c :: s' =>
      match utf8_char c, encode_utf8 s' with
      | Some b, Some bs => Some (b ++ bs)
      | _, _ => None
      end
  end.

(** ** python-docx *)

(** The characters that a paragraph of a python-docx document can hold.  The
    document is an lxml tree, and lxml refuses a string, with ValueError,
    that holds a control character other than tab, newline and carriage
    return, or U+FFFE or U+FFFF; a surrogate cannot be encoded and is
    refused with UnicodeEncodeError, a ValueError too. *)
Definition xml_char (c : char) : bool :=
  (((c =? 9) || (c =? 10) || (c =? 13) || (32 <=? c))
   && negb ((55296 <=? c) && (c <=? 57343))
   && negb ((c =? 65534) || (c =? 65535)))%N.

(** A document under construction: the texts of its paragraphs, in order,
    as they were passed to [add_paragraph].  [Document()] has none. *)
Definition document := list str.

(** [doc.add_paragraph(para)]; [None] where it raises. *)
Definition add_paragraph (doc : document) (para : str) : option document :=
  if forallb xml_char para then Some (doc ++ [para]) else None.

End Py.

Import Py.

(** ** The stop words of app.py *)

Definition STOPWORDS : list str :=
  split (lit "
a an and are as at be by for from has he in is it its of on that the to was were will with your you i me my we our theirs ours
").

(** ** quick_summarize *)

(** The tuples [(score, i, s)] of [scores]. *)
Definition scored := (Z * nat * str)%type.

(** Tuple comparison [a <= b], component by component from the left. *)
Definition scored_leb (a b : scored) : bool :=
  let '(sa, ia, ta) := a in
  let '(sb, ib, tb) := b in
  if sa <? sb then true
  else if sb <? sa then false
  else if (ia <? ib)%nat then true
  else if (ib <? ia)%nat then false
  else negb (str_ltb tb ta).

(** [[w.lower() for w in re.findall(r"[A-Za-z']+", text)]]. *)
Definition lowered_words (text : str) : list str :=
  List.map lower (findall_words text).

(** [[w for w in words if w not in STOPWORDS]]. *)
Definition content_words (text : str) : list str :=
  filter (fun w => negb (contains STOPWORDS w)) (lowered_words text).

(** The early-return test [not text or len(text.split()) < 20]. *)
Definition too_short (text : str) : bool :=
  match text with
  | [] => true
  | _ :: _ => Z.of_nat (length (split text)) <? 20
  end.

(** The local [sents]. *)
Definition sents_of (text : str) : list str :=
  re_split_sentences (strip text).

(** The local [freq]. *)
Definition freq_of (text : str) : counter :=
  Counter (content_words text).

(** [sum(freq.get(w, 0) for w in sw)] for one sentence. *)
Definition score_of (freq : counter) (s : str) : Z :=
  sum (List.map (fun w => get freq w 0) (lowered_words s)).

(** The local [scores] after the loop. *)
Definition scores_of (text : str) : list scored :=
  List.map (fun '(i, s) => (score_of (freq_of text) s, i, s))
    (enumerate (sents_of text)).

(** [sorted(scores, reverse=True)]. *)
Definition ranked_of (text : str) : list scored :=
  sort (fun a b => scored_leb b a) (scores_of text).

(** The local [top]. *)
Definition top_of (text : str) (max_sentences : Z) : list str :=
  List.map (fun '(_, _, s) => s) (slice_to max_sentences (ranked_of text)).

(** The local [chosen]. *)
Definition chosen_of (text : str) (max_sentences : Z) : list (nat * str) :=
  sorted_by_key (fun x => Z.of_nat (fst x)) false
    (List.map (fun '(_, i, s) => (i, s))
       (filter (fun '(_, _, s) => contains (top_of text max_sentences) s)
          (scores_of text))).

Definition quick_summarize (text : str) (max_sentences : Z) : str :=
  if too_short text then text
  else if Z.of_nat (length (sents_of text)) <=? max_sentences then text
  else join (lit " ") (List.map snd (chosen_of text max_sentences)).

(** ** top_words *)

Definition top_words (text : str) (n : Z) : list (str * Z) :=
  most_common (Counter (content_words text)) n.

(** ** The helpers and the history of app.py *)

Definition clean_quotes (path_or_name : str) : str :=
  strip_chars (fun c => char_eqb c 39%N)
    (strip_chars (fun c => char_eqb c 34%N) (strip path_or_name)).

Definition make_txt_bytes (text : str) : option bytes :=
  encode_utf8 text.

(** The iterable of the loop of [make_docx_bytes]:
    [(text.split("\n") if text else [""])]. *)
Definition split_paragraphs (text : str) : list str :=
  match text with
  | [] => [[]]
  | _ :: _ => split_on 10%N [] text
  end.

(** The loop [for para in ...: doc.add_paragraph(para)], from the document
    [doc] on; [None] when one of the calls raises. *)
Fixpoint add_paragraphs (doc : document) (paras : list str)
  : option document :=
  match paras with
  | [] => Some doc
  | para :: rest =>
      match add_paragraph doc para with
      | Some doc' => add_paragraphs doc' rest
      | None => None
      end
  end.

(** The paragraphs of the document that [make_docx_bytes] saves; [None] when
    it raises instead.  The bytes that [doc.save] writes are the library's
    and are not modelled. *)
Definition docx_paragraphs (text : str) : option document :=
  add_paragraphs [] (split_paragraphs text).

(** The dicts [{"source": ..., "lang": ..., "text": ...}] of
    [st.session_state.history]. *)
Record history_item : Type :=
  { item_source : str; item_lang : str; item_text : str }.

(** [st.session_state.history.append(item)]. *)
Definition history_append (history : list history_item) (item : history_item)
  : list history_item :=
  history ++ [item].

(** The items listed under History: [history[::-1][:5]]. *)
Definition listed_history (history : list history_item) : list history_item :=
  slice_to 5 (rev history).

(** The text of the summary box:
    [quick_summarize(txt, max_sentences=3) or "—"]. *)
Definition shown_summary (txt : str) : str :=
  match quick_summarize txt 3 with
  | [] => [8212%N]
  | summary => summary
  end.

(** * Notions used in the statements *)

(** ** Orders *)

Section KeyOrder.
Context {A : Type} (key : A -> Z).

(** [x] may stay before [y] when its key is at least that of [y]: the order
    of [sorted(..., key=key, reverse=True)]. *)
Definition key_ge (x y : A) : bool := key y <=? key x.

(** The same with a strict test: [x] goes behind the elements of its key. *)
Definition key_gt (x y : A) : bool := key y <? key x.

(** The parts of a decorated tuple [(k, order, elem)] of [nlargest]. *)
Definition elem_of (d : decorated A) : A := let '(_, _, e) := d in e.
Definition order_of (d : decorated A) : Z := let '(_, o, _) := d in o.
Definition well_keyed (d : decorated A) : Prop :=
  let '(k, _, e) := d in k = key e.

(** The strict order of the decorated tuples. *)
Definition decorated_lt (a b : decorated A) : Prop :=
  let '(ka, oa, _) := a in
  let '(kb, ob, _) := b in
  ka < kb \/ (ka = kb /\ oa < ob).
End KeyOrder.

(** The boolean test [leb] tells [a] and [b] apart in the strict order
    [lt]. *)
Definition decides {B : Type} (leb : B -> B -> bool) (lt : B -> B -> Prop)
  (a b : B) : Prop :=
  (leb a b = true -> lt a b) /\ (leb a b = false -> lt b a).

(** Order-preserving sub-lists. *)
Inductive subseq {B : Type} : list B -> list B -> Prop :=
| subseq_nil : subseq [] []
| subseq_skip (x : B) (l1 l2 : list B) : subseq l1 l2 -> subseq l1 (x :: l2)
| subseq_take (x : B) (l1 l2 : list B) :
    subseq l1 l2 -> subseq (x :: l1) (x :: l2).

(** ** The frequency table *)

(** The number of occurrences of [w] in [words]. *)
Definition count_of (w : str) (words : list str) : Z :=
  Z.of_nat (length (filter (str_eqb w) words)).

(** The distinct words of [words], each at its first occurrence. *)
Fixpoint first_seen (words : list str) : list str :=
  match words with
  | [] => []
  | w :: ws => w :: filter (fun v => negb (str_eqb v w)) (first_seen ws)
  end.

Definition apostrophe : char := 39%N.

(** ** The candidates of quick_summarize *)

Definition score_part (c : scored) : Z := fst (fst c).
Definition index_part (c : scored) : nat := snd (fst c).
Definition sentence_part (c : scored) : str := snd c.

(** [a] is ranked before [b]: a greater score, or the same score and a
    greater index. *)
Definition ranks_before (a b : scored) : Prop :=
  score_part b < score_part a \/
  (score_part b = score_part a /\ (index_part b < index_part a)%nat).

(** [p] is a contiguous part of [t]. *)
Definition occurs_in (p t : str) : Prop :=
  exists pre post : str, t = pre ++ p ++ post.

(** The characters of a list of pieces, counting one more for each piece:
    the length of their join with a one-character separator, plus one. *)
Fixpoint weight (l : list str) : nat :=
  match l with
  | [] => 0
  | s :: l' => S (length s + weight l')
  end.

(** ** The specification's wording of three rules *)

(** The tie rule: of two sentences with one score, the one with the lower
    index is in [top] whenever the other is. *)
Definition lower_index_wins (text : str) (max_sentences : Z) : Prop :=
  forall (sc : Z) (i j : nat) (si sj : str),
    (i < j)%nat ->
    In (sc, i, si) (scores_of text) -> In (sc, j, sj) (scores_of text) ->
    In sj (top_of text max_sentences) -> In si (top_of text max_sentences).

(** The clamping rule: a non-positive [max_sentences] counts as 1. *)
Definition clamped_to_one (text : str) (max_sentences : Z) : Prop :=
  quick_summarize text max_sentences = quick_summarize text 1.

(** The three conditions of the early returns: an empty document, fewer
    than 20 whitespace-delimited words, no more sentences than asked for. *)
Definition fallback_condition (text : str) (max_sentences : Z) : Prop :=
  text = [] \/
  Z.of_nat (length (split text)) < 20 \/
  Z.of_nat (length (sents_of text)) <= max_sentences.

(** ** The shape of a sentence *)

(** [s] is not empty and does not begin with whitespace. *)
Definition starts_clean (s : str) : bool :=
  match s with
  | [] => false
  | c :: _ => negb (isspace c)
  end.

(** [s] does not end with whitespace. *)
Definition no_trailing_space (s : str) : bool :=
  match rev s with
  | [] => true
  | c :: _ => negb (isspace c)
  end.

(** The last character of [s] is one of [. ! ?]. *)
Definition ends_terminal (s : str) : bool :=
  match rev s with
  | [] => false
  | c :: _ => is_terminal c
  end.

(** [s] holds one of [. ! ?] followed by whitespace: a place where
    [re.split] cuts. *)
Fixpoint has_break (s : str) : bool :=
  match s with
  | [] => false
  | c :: s' =>
      match s' with
      | [] => false
      | d :: _ => (is_terminal c && isspace d) || has_break s'
      end
  end.

(** Reading [p] after a character that is ([after_terminal]) or is not one of
    [. ! ?] meets no place to cut. *)
Fixpoint quiet (after_terminal : bool) (p : str) : bool :=
  match p with
  | [] => true
  | c :: p' => negb (after_terminal && isspace c) && quiet (is_terminal c) p'
  end.

(** Whether the character read last is one of [. ! ?], after reading [p]. *)
Fixpoint after_of (after_terminal : bool) (p : str) : bool :=
  match p with
  | [] => after_terminal
  | c :: p' => after_of (is_terminal c) p'
  end.

(** A sentence as [re.split] leaves it in a document without surrounding
    whitespace. *)
Definition sentence_shaped (s : str) : Prop :=
  starts_clean s = true /\ no_trailing_space s = true /\ has_break s = false.

(** ** Tokens, prefixes, quotes and bytes *)

(** A lower-case ASCII letter or an apostrophe. *)
Definition is_lower_word_char (c : char) : bool :=
  ((97 <=? c) && (c <=? 122) || (c =? 39))%N.

(** [a] is an initial part of [b]. *)
Definition prefix_of {B : Type} (a b : list B) : Prop :=
  exists rest, b = a ++ rest.

(** [s] neither begins nor ends with a character of the class [p]. *)
Definition bare (p : char -> bool) (s : str) : bool :=
  match s with
  | [] => true
  | c :: _ => negb (p c)
  end &&
  match rev s with
  | [] => true
  | c :: _ => negb (p c)
  end.

(** The code point that the bytes of one UTF-8 sequence stand for. *)
Definition utf8_value (b : bytes) : N :=
  (match b with
   | [b0] => b0
   | [b0; b1] => (b0 - 192) * 64 + (b1 - 128)
   | [b0; b1; b2] => (b0 - 224) * 4096 + (b1 - 128) * 64 + (b2 - 128)
   | [b0; b1; b2; b3] =>
       (b0 - 240) * 262144 + (b1 - 128) * 4096 + (b2 - 128) * 64 + (b3 - 128)
   | _ => 0
   end)%N.

(** The length of the UTF-8 sequence that begins with the byte [b0]. *)
Definition utf8_width (b0 : N) : nat :=
  if (b0 <? 128)%N then 1%nat
  else if (b0 <? 224)%N then 2%nat
  else if (b0 <? 240)%N then 3%nat
  else 4%nat.

(** A Unicode scalar value: a code point that is no surrogate. *)
Definition is_scalar (c : char) : bool :=
  ((c <? 55296) || (57343 <? c) && (c <? 1114112))%N.

(** ** The sentences of a summary *)

(** The sentences that a summary holds: those it is cut into as a document
    is; the empty summary holds none. *)
Definition summary_sentences (summary : str) : list str :=
  match summary with
  | [] => []
  | _ :: _ => sents_of summary
  end.

(** The frequencies of the tokens of the sentence [s] other than [w], added
    up. *)
Definition other_tokens (freq : counter) (w s : str) : Z :=
  sum (List.map (fun v => get freq v 0)
         (filter (fun v => negb (str_eqb w v)) (lowered_words s))).

(** ** Example documents *)

(** Three sentences of seven words each, made of the same seven words. *)
Definition tie_text : str :=
  lit "alpha beta gamma delta epsilon zeta eta. eta zeta epsilon delta gamma beta alpha. beta alpha gamma delta epsilon zeta eta.".

(** A document that says one sentence three times, and another in between. *)
Definition repeated_text : str :=
  lit "The quick brown fox jumps over the lazy dog. It rains. The quick brown fox jumps over the lazy dog. The quick brown fox jumps over the lazy dog.".

(** A document that says one sentence three times. *)
Definition thrice_text : str :=
  lit "The quick brown fox jumps over the lazy dog. The quick brown fox jumps over the lazy dog. The quick brown fox jumps over the lazy dog.".

(** A document of four different sentences. *)
Definition sample_text : str :=
  lit "The cat sat on the mat near the door. The dog chased the cat around the garden all day. Birds sing. The cat and the dog sleep by the door at night.".

(** A document of three sentences, two of which hold the token of three
    apostrophes. *)
Definition apostrophe_text : str :=
  lit "The ''' mark is odd and the ''' mark is rare. We saw it in an old book of rules. It means little to people now but ''' stays.".

(** * Properties *)

(** ** Strings and membership *)

Lemma str_eqb_eq (a b : str) : str_eqb a b = true <-> a = b.
Proof.
  revert b; induction a as [|x a IH]; intros [|y b]; simpl; split;
    try congruence; try reflexivity.
  - intros H. apply andb_true_iff in H as [Hx Hab].
    apply N.eqb_eq in Hx. apply IH in Hab. congruence.
  - intros H. injection H as -> ->. apply andb_true_iff. split.
    + apply N.eqb_refl.
    + now apply IH.
Qed.

Lemma str_eqb_refl (a : str) : str_eqb a a = true.
Proof. now apply str_eqb_eq. Qed.

Lemma str_eqb_neq (a b : str) : str_eqb a b = false <-> a <> b.
Proof.
  split.
  - intros H E. apply str_eqb_eq in E. congruence.
  - intros H. destruct (str_eqb a b) eqn:E; [|reflexivity].
    apply str_eqb_eq in E. contradiction.
Qed.

Lemma contains_In (xs : list str) (x : str) : contains xs x = true <-> In x xs.
Proof.
  unfold contains. rewrite existsb_exists. split.
  - intros [y [Hy E]]. apply str_eqb_eq in E. now subst.
  - intros H. exists x. split; [assumption | apply str_eqb_refl].
Qed.

(** ** The stable sort *)

Section SortFacts.
Context {A : Type} (le : A -> A -> bool).

Lemma insert_perm (x : A) (l : list A) : Permutation (x :: l) (insert le x l).
Proof.
  induction l as [|y l IH]; simpl.
  - reflexivity.
  - destruct (le x y).
    + reflexivity.
    + rewrite perm_swap. now constructor.
Qed.

Lemma sort_perm (l : list A) : Permutation l (sort le l).
Proof.
  induction l as [|x l IH]; simpl.
  - constructor.
  - rewrite <- insert_perm. now constructor.
Qed.

Lemma sort_length (l : list A) : length (sort le l) = length l.
Proof. symmetry. apply Permutation_length, sort_perm. Qed.

Lemma sort_In (l : list A) (x : A) : In x (sort le l) <-> In x l.
Proof.
  split; apply Permutation_in; [symmetry|]; apply sort_perm.
Qed.

(** An element that may stay before none of the others goes last. *)
Lemma insert_last (x : A) (l : list A) :
  Forall (fun y => le x y = false) l -> insert le x l = l ++ [x].
Proof.
  induction 1 as [|y l Hy _ IH]; simpl.
  - reflexivity.
  - now rewrite Hy, IH.
Qed.

Lemma insert_app_keep (x m : A) (l : list A) :
  le x m = true -> insert le x (l ++ [m]) = insert le x l ++ [m].
Proof.
  intros Hm. induction l as [|y l IH]; simpl.
  - now rewrite Hm.
  - destruct (le x y); [reflexivity|]. now rewrite IH.
Qed.

(** Inserting and cutting to [n] elements only looks at the first [n]. *)
Lemma firstn_insert (x : A) (n : nat) (l : list A) :
  firstn n (insert le x l) = firstn n (insert le x (firstn n l)).
Proof.
  revert l; induction n as [|n IH]; intros l; [reflexivity|].
  destruct l as [|y l]; [reflexivity|].
  rewrite firstn_cons. cbn [insert].
  destruct (le x y).
  - rewrite !firstn_cons. f_equal.
    rewrite <- (firstn_cons n y l), firstn_firstn. f_equal. lia.
  - rewrite !firstn_cons. f_equal. apply IH.
Qed.

Section Ordered.
Hypothesis le_total : forall x y, le x y = true \/ le y x = true.
Hypothesis le_trans :
  forall x y z, le x y = true -> le y z = true -> le x z = true.

Lemma insert_sorted (x : A) (l : list A) :
  StronglySorted (fun a b => le a b = true) l ->
  StronglySorted (fun a b => le a b = true) (insert le x l).
Proof.
  induction 1 as [|y l Hl IH Hy]; simpl.
  - repeat constructor.
  - destruct (le x y) eqn:E.
    + constructor; [now constructor|].
      constructor; [assumption|].
      eapply Forall_impl; [|exact Hy]. intros; eauto.
    + constructor; [assumption|].
      assert (Hyx : le y x = true) by (destruct (le_total x y); congruence).
      rewrite Forall_forall in *. intros z Hz.
      apply (Permutation_in _ (Permutation_sym (insert_perm x l))) in Hz.
      destruct Hz as [<-|Hz]; auto.
Qed.

Lemma sort_sorted (l : list A) :
  StronglySorted (fun a b => le a b = true) (sort le l).
Proof.
  induction l as [|x l IH]; simpl; [constructor | now apply insert_sorted].
Qed.
End Ordered.
End SortFacts.

(** Sorting is stable: the elements that satisfy a predicate [p] which the
    order cannot tell apart (all of them may stay before each other) keep
    their order. *)
Lemma insert_filter {A : Type} (le : A -> A -> bool) (p : A -> bool)
  (x : A) (l : list A) :
  (forall y, In y l -> p x = true -> p y = true -> le x y = true) ->
  filter p (insert le x l) = filter p (x :: l).
Proof.
  induction l as [|y l IH]; intros H; simpl; [reflexivity|].
  destruct (le x y) eqn:E; simpl; [reflexivity|].
  rewrite IH by (intros; apply H; simpl; auto). simpl.
  destruct (p x) eqn:Px, (p y) eqn:Py; try reflexivity.
  rewrite H in E; simpl; auto. discriminate.
Qed.

Lemma sort_stable {A : Type} (le : A -> A -> bool) (p : A -> bool)
  (l : list A) :
  (forall x y, p x = true -> p y = true -> le x y = true) ->
  filter p (sort le l) = filter p l.
Proof.
  intros H. induction l as [|x l IH]; simpl; [reflexivity|].
  rewrite insert_filter by (intros; now apply H). simpl. now rewrite IH.
Qed.

(** Sorting a list whose elements the order tells apart gives a strictly
    sorted list. *)
Section StrictSort.
Context {B : Type} (leb : B -> B -> bool) (lt : B -> B -> Prop).
Hypothesis lt_trans : forall a b c, lt a b -> lt b c -> lt a c.

Lemma insert_strict (x : B) (h : list B) :
  StronglySorted lt h -> Forall (decides leb lt x) h ->
  StronglySorted lt (insert leb x h).
Proof.
  induction 1 as [|d h Hs IH Hd]; intros Hf; simpl.
  - repeat constructor.
  - apply Forall_cons_iff in Hf as [[Ht Hn] Hf].
    destruct (leb x d) eqn:E.
    + constructor; [now constructor|].
      constructor; [now apply Ht|].
      eapply Forall_impl; [|exact Hd]. intros c Hc.
      eapply lt_trans; [now apply Ht | exact Hc].
    + constructor; [now apply IH|].
      rewrite Forall_forall in *. intros z Hz.
      apply (Permutation_in _ (Permutation_sym (insert_perm leb x h))) in Hz.
      destruct Hz as [<-|Hz]; auto.
Qed.

Lemma sort_strict (l : list B) :
  StronglySorted (decides leb lt) l -> StronglySorted lt (sort leb l).
Proof.
  induction 1 as [|x l Hs IH Hx]; simpl; [constructor|].
  apply insert_strict; [assumption|].
  rewrite Forall_forall in *. intros y Hy. apply Hx.
  now apply sort_In in Hy.
Qed.
End StrictSort.

Lemma StronglySorted_weaken {B : Type} (R R' : B -> B -> Prop)
  (l : list B) :
  (forall a b, R a b -> R' a b) -> StronglySorted R l -> StronglySorted R' l.
Proof.
  intros HR. induction 1; constructor; auto.
  eapply Forall_impl; [|eassumption]. auto.
Qed.

(** ** [heapq.nlargest] returns the head of the stable descending sort *)

Section NlargestFacts.
Context {A : Type} (key : A -> Z).

Ltac bools :=
  repeat match goal with
    | H : (_ <=? _) = true |- _ => apply Z.leb_le in H
    | H : (_ <=? _) = false |- _ => apply Z.leb_gt in H
    | H : (_ <? _) = true |- _ => apply Z.ltb_lt in H
    | H : (_ <? _) = false |- _ => apply Z.ltb_ge in H
    end.

Ltac split_ifs :=
  repeat match goal with
    | |- context [if ?b then _ else _] => destruct b eqn:?
    end; bools; try reflexivity; try lia.

Lemma insert_ge_gt_comm (a x : A) (l : list A) :
  insert (key_ge key) a (insert (key_gt key) x l) =
  insert (key_gt key) x (insert (key_ge key) a l).
Proof.
  induction l as [|y l IH]; unfold key_ge, key_gt in *; simpl.
  - split_ifs.
  - destruct (key y <? key x) eqn:E1, (key y <=? key a) eqn:E2; simpl;
      rewrite ?E1, ?E2; bools; try rewrite IH; split_ifs.
Qed.

(** The descending sort, read from the left: a later element goes
    behind the earlier ones of its key. *)
Lemma sort_ge_snoc (p : list A) (x : A) :
  sort (key_ge key) (p ++ [x]) = insert (key_gt key) x (sort (key_ge key) p).
Proof.
  induction p as [|a p IH]; simpl; [reflexivity|].
  now rewrite IH, insert_ge_gt_comm.
Qed.

Lemma sorted_by_key_desc (xs : list A) :
  sorted_by_key key true xs = sort (key_ge key) xs.
Proof. reflexivity. Qed.

Lemma sort_ge_sorted (xs : list A) :
  StronglySorted (fun a b => key b <= key a) (sort (key_ge key) xs).
Proof.
  assert (H : StronglySorted (fun a b => key_ge key a b = true)
                (sort (key_ge key) xs)).
  { apply sort_sorted; unfold key_ge; intros; bools.
    - destruct (Z.le_gt_cases (key y) (key x)); [left|right];
        apply Z.leb_le; lia.
    - apply Z.leb_le. lia. }
  induction H; constructor; auto.
  eapply Forall_impl; [|eassumption]. unfold key_ge. intros; bools; lia.
Qed.

(** [n == 1]: [max] picks the head of the sort. *)
Lemma max_by_hd (xs : list A) :
  max_by key xs = hd_error (sort (key_ge key) xs).
Proof.
  destruct xs as [|x xs]; [reflexivity|]. unfold max_by.
  assert (H : forall p best,
    hd_error (sort (key_ge key) p) = Some best ->
    hd_error (sort (key_ge key) (p ++ xs)) =
    Some (fold_left (fun b y => if key b <? key y then y else b) xs best)).
  { induction xs as [|y xs IH]; intros p best Hp.
    - now rewrite app_nil_r.
    - change (p ++ y :: xs) with (p ++ [y] ++ xs). rewrite app_assoc.
      simpl. apply IH. rewrite sort_ge_snoc.
      destruct (sort (key_ge key) p) as [|h t]; [discriminate|].
      injection Hp as ->. unfold key_gt; simpl.
      now destruct (key best <? key y). }
  symmetry. apply (H [x] x). reflexivity.
Qed.

(** The general branch. *)

Lemma decorated_leb_lt (a b : decorated A) :
  decorated_lt a b -> decorated_leb a b = true /\ decorated_leb b a = false.
Proof.
  destruct a as [[ka oa] ea], b as [[kb ob] eb].
  unfold decorated_lt, decorated_leb.
  intros H. split; split_ifs.
Qed.

(** Putting a tuple into an ascending heap is, read from the greatest
    tuple down, an insertion into the list of elements: [le2] is [key_ge] for
    a tuple whose [order] is above those of the heap and [key_gt] for
    one whose [order] is below them. *)
Lemma rev_insert_decorated (le2 : A -> A -> bool) (item : decorated A)
  (h : list (decorated A)) :
  StronglySorted
    (fun d d' => decorated_leb item d = true ->
                 decorated_leb item d' = true) h ->
  Forall (fun d => decorated_leb item d =
                   negb (le2 (elem_of item) (elem_of d))) h ->
  List.map elem_of (rev (insert decorated_leb item h)) =
  insert le2 (elem_of item) (List.map elem_of (rev h)).
Proof.
  induction 1 as [|d h Hs IH Hd]; intros Hf; [reflexivity|].
  apply Forall_cons_iff in Hf as [Hd2 Hf]. cbn [insert].
  destruct (decorated_leb item d) eqn:E.
  - change (rev (item :: d :: h)) with (rev (d :: h) ++ [item]).
    rewrite map_app. symmetry. apply insert_last.
    rewrite Forall_forall. intros y Hy.
    apply in_map_iff in Hy as [d' [<- Hd']]. apply in_rev in Hd'.
    destruct Hd' as [<-|Hd'].
    + now destruct (le2 (elem_of item) (elem_of d)).
    + rewrite Forall_forall in Hd, Hf.
      specialize (Hd _ Hd' eq_refl). rewrite (Hf _ Hd') in Hd.
      now destruct (le2 (elem_of item) (elem_of d')).
  - simpl. rewrite !map_app. simpl. rewrite IH by assumption.
    symmetry. apply insert_app_keep.
    now destruct (le2 (elem_of item) (elem_of d)).
Qed.

Lemma decorated_lt_trans (a b c : decorated A) :
  decorated_lt a b -> decorated_lt b c -> decorated_lt a c.
Proof.
  destruct a as [[ka oa] ea], b as [[kb ob] eb], c as [[kc oc] ec].
  unfold decorated_lt. lia.
Qed.

Lemma decorated_leb_cases (a b : decorated A) :
  order_of a <> order_of b ->
  (decorated_leb a b = true -> decorated_lt a b) /\
  (decorated_leb a b = false -> decorated_lt b a).
Proof.
  destruct a as [[ka oa] ea], b as [[kb ob] eb].
  unfold decorated_lt, decorated_leb, order_of. intros Ho.
  destruct (ka <? kb) eqn:E1; [|destruct (kb <? ka) eqn:E2;
    [|destruct (oa <=? ob) eqn:E3]]; bools; split; intros; try discriminate;
    lia.
Qed.

Lemma insert_decorated_sorted (item : decorated A) (h : list (decorated A)) :
  StronglySorted decorated_lt h ->
  Forall (fun d => order_of item <> order_of d) h ->
  StronglySorted decorated_lt (insert decorated_leb item h).
Proof.
  intros Hs Hf.
  apply (insert_strict decorated_leb decorated_lt decorated_lt_trans);
    [assumption|].
  eapply Forall_impl; [|exact Hf]. intros d Hd. now apply decorated_leb_cases.
Qed.

(** A tuple whose [order] is below all those of the heap: the new
    element goes behind the elements of its key. *)
Lemma heap_insert_low (x : A) (order : Z) (h : list (decorated A)) :
  StronglySorted decorated_lt h ->
  Forall (fun d => well_keyed key d /\ order < order_of d) h ->
  List.map elem_of (rev (insert decorated_leb (key x, order, x) h)) =
  insert (key_gt key) x (List.map elem_of (rev h)).
Proof.
  intros Hs Hf.
  apply (rev_insert_decorated (key_gt key) (key x, order, x)).
  - eapply StronglySorted_weaken; [|exact Hs].
    intros [[ka oa] ea] [[kb ob] eb]. unfold decorated_lt, decorated_leb.
    intros H. split_ifs; intros; try discriminate; lia.
  - eapply Forall_impl; [|exact Hf].
    intros [[k o] e].
    unfold well_keyed, order_of, decorated_leb, key_gt, elem_of.
    intros [-> Ho]. split_ifs.
Qed.

(** A tuple whose [order] is above all those of the heap: the new
    element goes before the elements of its key. *)
Lemma heap_insert_high (x : A) (order : Z) (h : list (decorated A)) :
  StronglySorted decorated_lt h ->
  Forall (fun d => well_keyed key d /\ order_of d < order) h ->
  List.map elem_of (rev (insert decorated_leb (key x, order, x) h)) =
  insert (key_ge key) x (List.map elem_of (rev h)).
Proof.
  intros Hs Hf.
  apply (rev_insert_decorated (key_ge key) (key x, order, x)).
  - eapply StronglySorted_weaken; [|exact Hs].
    intros [[ka oa] ea] [[kb ob] eb]. unfold decorated_lt, decorated_leb.
    intros H. split_ifs; intros; try discriminate; lia.
  - eapply Forall_impl; [|exact Hf].
    intros [[k o] e].
    unfold well_keyed, order_of, decorated_leb, key_ge, elem_of.
    intros [-> Ho]. split_ifs.
Qed.

Lemma Forall_insert {B : Type} (le : B -> B -> bool) (P : B -> Prop)
  (x : B) (l : list B) :
  P x -> Forall P l -> Forall P (insert le x l).
Proof.
  intros Hx Hl. rewrite Forall_forall in *. intros y Hy.
  apply (Permutation_in _ (Permutation_sym (insert_perm le x l))) in Hy.
  destruct Hy as [<-|Hy]; auto.
Qed.

(** [heapify] of the decorated first elements. *)
Lemma heapify_decorate (i : Z) (l : list A) :
  let h := heapify (decorate key i l) in
  StronglySorted decorated_lt h /\
  Forall (fun d => well_keyed key d /\
                   i - Z.of_nat (length l) < order_of d <= i) h /\
  List.map elem_of (rev h) = sort (key_ge key) l.
Proof.
  revert i; induction l as [|x l IH]; intros i.
  - simpl. repeat split; constructor.
  - destruct (IH (i - 1)) as (Hs & Hf & He).
    unfold heapify in *. cbn [decorate sort]. repeat split.
    + apply insert_decorated_sorted; [assumption|].
      eapply Forall_impl; [|exact Hf]. intros [[k o] e]. simpl. lia.
    + apply Forall_insert.
      * cbn [well_keyed order_of length]. split; [reflexivity|]. lia.
      * eapply Forall_impl; [|exact Hf].
        intros [[k o] e]; unfold well_keyed, order_of.
        cbn [length]. lia.
    + rewrite heap_insert_high, He; [reflexivity|assumption|].
      eapply Forall_impl; [|exact Hf].
      intros [[k o] e]; unfold well_keyed, order_of. lia.
Qed.

(** The final [result.sort(reverse=True)] turns the heap over. *)
Lemma sort_desc_heap (h : list (decorated A)) :
  StronglySorted decorated_lt h ->
  sort (fun a b => decorated_leb b a) h = rev h.
Proof.
  induction 1 as [|d h Hs IH Hd]; [reflexivity|].
  simpl. rewrite IH. apply insert_last.
  rewrite Forall_forall in *. intros y Hy. apply in_rev in Hy.
  now apply decorated_leb_lt, Hd.
Qed.

Lemma firstn_app_exact {B : Type} (m : nat) (l l' : list B) :
  length l = m -> firstn m (l ++ l') = l.
Proof.
  intros <-. now rewrite firstn_app, Nat.sub_diag, firstn_O, app_nil_r,
    firstn_all.
Qed.

Lemma nlargest_loop (m : nat) (it : list A) :
  forall (h : list (decorated A)) (top order : Z) (p : list A),
    length h = m ->
    hd_error (List.map (fun d => fst (fst d)) h) = Some top ->
    StronglySorted decorated_lt h ->
    Forall (fun d => well_keyed key d /\ order < order_of d) h ->
    List.map elem_of (rev h) = firstn m (sort (key_ge key) p) ->
    let '(h', _, _) := fold_left (nlargest_step key) it (h, top, order) in
    StronglySorted decorated_lt h' /\
    List.map elem_of (rev h') = firstn m (sort (key_ge key) (p ++ it)).
Proof.
  induction it as [|x it IH]; intros h top order p Hm Ht Hs Hf He.
  - simpl. now rewrite app_nil_r.
  - change (p ++ x :: it) with (p ++ [x] ++ it). rewrite app_assoc.
    cbn [fold_left]. unfold nlargest_step at 2.
    destruct h as [|[[k0 o0] e0] t]; [discriminate|].
    injection Ht as <-.
    assert (Hlen : length (List.map elem_of (rev ((k0, o0, e0) :: t))) = m)
      by now rewrite length_map, length_rev.
    apply StronglySorted_inv in Hs as [Hst Hd].
    apply Forall_cons_iff in Hf as [[Hk0 Ho0] Hft].
    unfold well_keyed in Hk0. subst k0.
    destruct (key e0 <? key x) eqn:E; bools.
    + unfold heapreplace. cbn [tl].
      set (h' := insert decorated_leb (key x, order, x) t).
      assert (Hl' : length h' = m).
      { unfold h'. rewrite <- (Permutation_length (insert_perm _ _ _)).
        exact Hm. }
      assert (Hs' : StronglySorted decorated_lt h').
      { apply insert_decorated_sorted; [assumption|].
        eapply Forall_impl; [|exact Hft]. intros [[k o] e]. simpl. lia. }
      apply IH.
      * exact Hl'.
      * destruct h' as [|[[k1 o1] e1] h'']; [|reflexivity].
        simpl in Hl', Hm. lia.
      * exact Hs'.
      * apply Forall_insert.
        -- simpl. split; [reflexivity|lia].
        -- eapply Forall_impl; [|exact Hft].
           intros [[k o] e]; unfold well_keyed, order_of. lia.
      * unfold h' at 1. rewrite heap_insert_low by assumption.
        rewrite sort_ge_snoc, firstn_insert, <- He.
        cbn [rev]. rewrite map_app. cbn [List.map elem_of].
        rewrite insert_app_keep by (unfold key_gt; now apply Z.ltb_lt).
        assert (Hli : length (insert (key_gt key) x
                                (List.map elem_of (rev t))) = m).
        { rewrite <- (Permutation_length (insert_perm _ _ _)).
          simpl. rewrite length_map, length_rev. exact Hm. }
        symmetry. now apply firstn_app_exact.
    + apply IH.
      * exact Hm.
      * reflexivity.
      * now constructor.
      * constructor; [split; [reflexivity|assumption]|assumption].
      * rewrite sort_ge_snoc, firstn_insert, <- He.
        rewrite insert_last.
        -- symmetry. now apply firstn_app_exact.
        -- rewrite Forall_forall. intros y Hy.
           apply in_map_iff in Hy as [[[k o] e] [<- Hy]].
           apply in_rev in Hy. unfold key_gt, elem_of. apply Z.ltb_ge.
           destruct Hy as [Hy|Hy].
           ++ injection Hy as <- <- <-. lia.
           ++ rewrite Forall_forall in Hd, Hft.
              specialize (Hd _ Hy). destruct (Hft _ Hy) as [Hk _].
              unfold well_keyed in Hk. unfold decorated_lt in Hd. lia.
Qed.

(** [nlargest] is the first [n] of [sorted(xs, key=key, reverse=True)],
    and nothing for a negative [n]. *)
Theorem nlargest_sorted (n : Z) (xs : list A) :
  nlargest key n xs = firstn (Z.to_nat n) (sorted_by_key key true xs).
Proof.
  rewrite sorted_by_key_desc. unfold nlargest.
  destruct (n =? 1) eqn:E1.
  { apply Z.eqb_eq in E1. subst n. rewrite max_by_hd.
    now destruct (sort (key_ge key) xs). }
  destruct (Z.of_nat (length xs) <=? n) eqn:E2; bools.
  { unfold slice_to. destruct (n <? 0) eqn:E3; bools; [lia|reflexivity]. }
  destruct (Z.to_nat n) as [|m] eqn:Em; [reflexivity|].
  assert (Hn : n = Z.of_nat (S m)) by lia.
  pose proof (heapify_decorate 0 (firstn (S m) xs)) as (Hs & Hf & He).
  assert (Hlen : length (heapify (decorate key 0 (firstn (S m) xs))) = S m).
  { unfold heapify. rewrite sort_length.
    assert (Hd : forall l i, length (decorate key i l) = length l)
      by (induction l; intros; simpl; auto).
    rewrite Hd, firstn_length_le; lia. }
  destruct (heapify (decorate key 0 (firstn (S m) xs)))
    as [|[[top o0] e0] h0] eqn:Eh; [discriminate|].
  assert (Hf0 : Forall (fun d => well_keyed key d /\ - n < order_of d)
                  ((top, o0, e0) :: h0)).
  { eapply Forall_impl; [|exact Hf].
    intros [[k o] e]; unfold well_keyed, order_of.
    rewrite firstn_length_le by lia. lia. }
  assert (He0 : List.map elem_of (rev ((top, o0, e0) :: h0)) =
                firstn (S m) (sort (key_ge key) (firstn (S m) xs))).
  { etransitivity; [exact He|]. symmetry. apply firstn_all2.
    rewrite sort_length, firstn_length_le; lia. }
  pose proof (nlargest_loop (S m) (skipn (S m) xs) _ top (- n)
                (firstn (S m) xs) Hlen eq_refl Hs Hf0 He0) as Hloop.
  rewrite firstn_skipn in Hloop. revert Hloop.
  destruct (fold_left (nlargest_step key) _ _) as [[h' top'] order'].
  intros [Hs' He'].
  rewrite sort_desc_heap by assumption.
  rewrite <- He'. apply map_ext. now intros [[k o] e].
Qed.
End NlargestFacts.

(** ** The frequency table *)

Lemma filter_filter {B : Type} (p q : B -> bool) (l : list B) :
  filter p (filter q l) = filter (fun x => q x && p x) l.
Proof.
  induction l as [|x l IH]; simpl; [reflexivity|].
  destruct (q x); simpl; [destruct (p x)|]; now rewrite IH.
Qed.

Lemma first_seen_In (w : str) (words : list str) :
  In w (first_seen words) <-> In w words.
Proof.
  induction words as [|v ws IH]; simpl; [tauto|].
  rewrite filter_In, IH, negb_true_iff, str_eqb_neq.
  destruct (str_eqb v w) eqn:E.
  - apply str_eqb_eq in E. tauto.
  - apply str_eqb_neq in E. split; [tauto|]. intros [H|H]; [tauto|].
    right. split; [assumption|congruence].
Qed.

Lemma first_seen_NoDup (words : list str) : NoDup (first_seen words).
Proof.
  induction words as [|v ws IH]; simpl; constructor.
  - rewrite filter_In, negb_true_iff, str_eqb_refl. intros [_ H]. discriminate.
  - now apply NoDup_filter.
Qed.

Lemma str_eqb_sym (a b : str) : str_eqb a b = str_eqb b a.
Proof.
  destruct (str_eqb b a) eqn:E.
  - apply str_eqb_eq in E. subst. apply str_eqb_refl.
  - apply str_eqb_neq. apply str_eqb_neq in E. congruence.
Qed.

Lemma counter_incr_keys (w : str) (c : counter) :
  List.map fst (counter_incr w c) =
  if contains (List.map fst c) w then List.map fst c
  else List.map fst c ++ [w].
Proof.
  unfold contains. induction c as [|[k v] c IH]; simpl; [reflexivity|].
  destruct (str_eqb k w) eqn:E.
  - apply str_eqb_eq in E. subst. now rewrite str_eqb_refl.
  - rewrite (str_eqb_sym w k), E. simpl. rewrite IH.
    now destruct (existsb (str_eqb w) (List.map fst c)).
Qed.

Lemma counter_incr_get (w v : str) (c : counter) :
  get (counter_incr w c) v 0 = get c v 0 + (if str_eqb w v then 1 else 0).
Proof.
  induction c as [|[k n] c IH]; simpl.
  - destruct (str_eqb w v); reflexivity.
  - destruct (str_eqb k w) eqn:E; simpl.
    + apply str_eqb_eq in E. subst k.
      destruct (str_eqb w v); lia.
    + destruct (str_eqb k v) eqn:E2; [|exact IH].
      apply str_eqb_eq in E2. subst k. rewrite (str_eqb_sym w v), E. lia.
Qed.

Lemma Counter_keys_from (ws : list str) (acc : counter) :
  List.map fst (fold_left (fun c w => counter_incr w c) ws acc) =
  List.map fst acc ++
  filter (fun w => negb (contains (List.map fst acc) w)) (first_seen ws).
Proof.
  revert acc; induction ws as [|w ws IH]; intros acc; simpl.
  - now rewrite app_nil_r.
  - rewrite IH, counter_incr_keys.
    destruct (contains (List.map fst acc) w) eqn:E; simpl.
    + f_equal. rewrite filter_filter. apply filter_ext_in. intros v _.
      destruct (str_eqb v w) eqn:Ev; [|reflexivity].
      apply str_eqb_eq in Ev. subst v. now rewrite E.
    + rewrite <- app_assoc. simpl. do 2 f_equal.
      rewrite filter_filter. apply filter_ext. intros v.
      unfold contains. rewrite existsb_app. simpl.
      rewrite orb_false_r, negb_orb. apply andb_comm.
Qed.

Lemma Counter_get_from (ws : list str) (acc : counter) (v : str) :
  get (fold_left (fun c w => counter_incr w c) ws acc) v 0 =
  get acc v 0 + count_of v ws.
Proof.
  unfold count_of. revert acc; induction ws as [|w ws IH]; intros acc; simpl.
  - lia.
  - rewrite IH, counter_incr_get.
    rewrite (str_eqb_sym w v). destruct (str_eqb v w); simpl length; lia.
Qed.

Lemma counter_rebuild (c : counter) :
  NoDup (List.map fst c) ->
  c = List.map (fun k => (k, get c k 0)) (List.map fst c).
Proof.
  induction c as [|[k v] c IH]; simpl; intros Hnd; [reflexivity|].
  apply NoDup_cons_iff in Hnd as [Hk Hnd].
  rewrite str_eqb_refl. f_equal.
  rewrite IH at 1 by assumption. apply map_ext_in. intros w Hw.
  destruct (str_eqb k w) eqn:E; [|reflexivity].
  apply str_eqb_eq in E. subst. contradiction.
Qed.

(** [Counter(words)] lists every distinct word once, in the order of first
    occurrence, with its number of occurrences. *)
Theorem Counter_table (words : list str) :
  Counter words = List.map (fun w => (w, count_of w words)) (first_seen words).
Proof.
  assert (Hk : List.map fst (Counter words) = first_seen words).
  { unfold Counter. rewrite Counter_keys_from. simpl.
    induction (first_seen words) as [|a l IHl]; simpl in *;
      [reflexivity | now rewrite IHl]. }
  rewrite (counter_rebuild (Counter words)) at 1.
  - rewrite Hk. apply map_ext. intros w.
    unfold Counter. now rewrite Counter_get_from.
  - rewrite Hk. apply first_seen_NoDup.
Qed.

Lemma count_of_pos (w : str) (words : list str) :
  In w words -> 1 <= count_of w words.
Proof.
  unfold count_of. induction words as [|v ws IH]; simpl; [tauto|].
  intros [->|H].
  - rewrite str_eqb_refl. simpl length. lia.
  - destruct (str_eqb w v); simpl length; [lia|auto].
Qed.

Lemma Counter_get (words : list str) (w : str) :
  get (Counter words) w 0 = count_of w words.
Proof. unfold Counter. now rewrite Counter_get_from. Qed.

(** ** top_words *)

(** [top_words] in terms of the frequency table: the first [n] entries of
    the table sorted by count, greatest first, by a stable sort. *)
Lemma top_words_table (text : str) (n : Z) :
  top_words text n =
  firstn (Z.to_nat n)
    (sorted_by_key snd true
       (List.map (fun w => (w, count_of w (content_words text)))
          (first_seen (content_words text)))).
Proof.
  unfold top_words, most_common.
  now rewrite nlargest_sorted, Counter_table.
Qed.

Lemma In_firstn {B : Type} (n : nat) (l : list B) (x : B) :
  In x (firstn n l) -> In x l.
Proof.
  intros H. rewrite <- (firstn_skipn n l). apply in_or_app. now left.
Qed.

Lemma top_words_In (text : str) (n : Z) (w : str) (c : Z) :
  In (w, c) (top_words text n) ->
  In w (content_words text) /\ c = count_of w (content_words text).
Proof.
  rewrite top_words_table. intros H. apply In_firstn in H.
  unfold sorted_by_key in H. apply sort_In in H.
  apply in_map_iff in H as [v [E Hv]]. injection E as -> <-.
  split; [now apply first_seen_In|reflexivity].
Qed.

Lemma content_words_In (text : str) (w : str) :
  In w (content_words text) <->
  In w (lowered_words text) /\ contains STOPWORDS w = false.
Proof.
  unfold content_words. rewrite filter_In, negb_true_iff. tauto.
Qed.

(** C5: [top_words] returns the first [topN] entries of a ranking of the
    frequency table (every distinct content word with its number of
    occurrences, in the order of first occurrence) that is ordered by count,
    greatest first, and that keeps the entries of one count in the order of
    the table, that is, of first occurrence; on "cat cat dog dog" with
    [topN = 2] this is [("cat", 2); ("dog", 2)]. *)
Theorem top_words_ranked (text : str) (topN : Z) :
  let words := content_words text in
  let table := List.map (fun w => (w, count_of w words)) (first_seen words) in
  (exists ranked : list (str * Z),
      Permutation table ranked /\
      StronglySorted (fun a b => snd b <= snd a) ranked /\
      (forall c : Z,
          filter (fun e => snd e =? c) ranked =
          filter (fun e => snd e =? c) table) /\
      top_words text topN = firstn (Z.to_nat topN) ranked) /\
  top_words (lit "cat cat dog dog") 2 = [(lit "cat", 2); (lit "dog", 2)].
Proof.
  intros words table. split; [|reflexivity].
  exists (sorted_by_key snd true table).
  split; [|split; [|split]]; [| | |apply top_words_table].
  - apply sort_perm.
  - apply sort_ge_sorted.
  - intros c. apply sort_stable. intros x y Hx Hy.
    apply Z.eqb_eq in Hx, Hy. apply Z.leb_le. lia.
Qed.

(** C6: no pair returned by [top_words] has a stop word as its token, and
    a document all of whose tokens are stop words yields the empty list. *)
Theorem top_words_no_stopwords (text : str) (n : Z) :
  Forall (fun e => contains STOPWORDS (fst e) = false) (top_words text n) /\
  (forallb (contains STOPWORDS) (lowered_words text) = true ->
   top_words text n = []).
Proof.
  split.
  - rewrite Forall_forall. intros [w c] H.
    apply top_words_In in H as [H _]. now apply content_words_In in H.
  - intros H. rewrite top_words_table.
    assert (E : content_words text = []).
    { unfold content_words. rewrite forallb_forall in H.
      induction (lowered_words text) as [|w ws IH]; [reflexivity|].
      cbn [filter]. rewrite (H w) by (left; reflexivity). cbn [negb].
      apply IH. intros x Hx. apply H. now right. }
    rewrite E. cbn. now destruct (Z.to_nat n).
Qed.

Lemma top_words_no_stopwords_witness :
  forallb (contains STOPWORDS) (lowered_words (lit "The and of the")) = true /\
  top_words (lit "The and of the") 5 = [].
Proof.
  split; [reflexivity|].
  apply (proj2 (top_words_no_stopwords (lit "The and of the") 5)).
  reflexivity.
Defined.

(** C9: for every document and every [topN <= 0], negative ones included,
    [top_words] returns the empty list. *)
Theorem top_words_nonpositive (text : str) (topN : Z) :
  topN <= 0 -> top_words text topN = [].
Proof.
  intros H. rewrite top_words_table.
  replace (Z.to_nat topN) with 0%nat by lia. reflexivity.
Qed.

Lemma top_words_nonpositive_witness :
  top_words (lit "The cat sat on the mat and the cat ran") (-1) = [] /\
  top_words (lit "The cat sat on the mat and the cat ran") 0 = [].
Proof.
  split; apply top_words_nonpositive; lia.
Defined.

(** ** Tokens made of apostrophes *)

Lemma sum_from (xs : list Z) (a : Z) : fold_left Z.add xs a = a + sum xs.
Proof.
  unfold sum. revert a; induction xs as [|x xs IH]; intros a; simpl; [lia|].
  rewrite IH, (IH x). lia.
Qed.

Lemma sum_cons (x : Z) (xs : list Z) : sum (x :: xs) = x + sum xs.
Proof. unfold sum at 1. simpl. apply sum_from. Qed.

Lemma sum_nonneg (xs : list Z) : Forall (fun x => 0 <= x) xs -> 0 <= sum xs.
Proof.
  induction 1 as [|x xs Hx _ IH]; [reflexivity|]. rewrite sum_cons. lia.
Qed.

Lemma sum_ge_member (xs : list Z) (x : Z) :
  Forall (fun y => 0 <= y) xs -> In x xs -> x <= sum xs.
Proof.
  induction 1 as [|y xs Hy Hxs IH]; intros Hin; [contradiction|].
  rewrite sum_cons. pose proof (sum_nonneg xs Hxs).
  destruct Hin as [->|Hin]; [lia|]. specialize (IH Hin). lia.
Qed.

Lemma count_of_nonneg (w : str) (words : list str) : 0 <= count_of w words.
Proof. unfold count_of. lia. Qed.

(** A sentence scores at least the frequency of each of its tokens. *)
Lemma score_of_ge (text s w : str) :
  In w (lowered_words s) ->
  get (freq_of text) w 0 <= score_of (freq_of text) s.
Proof.
  intros H. unfold score_of. apply sum_ge_member.
  - rewrite Forall_forall. intros y Hy.
    apply in_map_iff in Hy as [v [<- _]].
    unfold freq_of. rewrite Counter_get. apply count_of_nonneg.
  - apply in_map_iff. now exists w.
Qed.

Lemma rev_repeat_same {B : Type} (a : B) (k : nat) :
  rev (repeat a k) = repeat a k.
Proof.
  induction k as [|k IH]; [reflexivity|]. simpl. rewrite IH.
  symmetry. apply repeat_cons.
Qed.

Lemma runs_repeat (p : char -> bool) (a : char) (k : nat) (cur : str) :
  p a = true -> runs p cur (repeat a k) = flush (repeat a k ++ cur).
Proof.
  intros Ha. revert cur; induction k as [|k IH]; intros cur; [reflexivity|].
  simpl repeat. cbn [runs]. rewrite Ha, IH. f_equal.
  change (a :: cur) with ([a] ++ cur). rewrite app_assoc.
  now rewrite <- repeat_cons.
Qed.

Lemma apostrophes_findall (k : nat) :
  (0 < k)%nat -> findall_words (repeat apostrophe k) = [repeat apostrophe k].
Proof.
  intros Hk. unfold findall_words.
  rewrite runs_repeat by reflexivity. rewrite app_nil_r.
  destruct k as [|k]; [lia|]. unfold flush. cbn [repeat].
  change (apostrophe :: repeat apostrophe k) with (repeat apostrophe (S k)).
  now rewrite rev_repeat_same.
Qed.

Lemma apostrophes_lower (k : nat) :
  lower (repeat apostrophe k) = repeat apostrophe k.
Proof. unfold lower. now rewrite map_repeat. Qed.

Lemma apostrophes_not_stopword (k : nat) :
  (0 < k)%nat -> contains STOPWORDS (repeat apostrophe k) = false.
Proof.
  intros Hk. destruct k as [|k]; [lia|]. reflexivity.
Qed.

Lemma apostrophes_content (k : nat) :
  (0 < k)%nat -> content_words (repeat apostrophe k) = [repeat apostrophe k].
Proof.
  intros Hk. unfold content_words, lowered_words.
  rewrite apostrophes_findall by assumption. cbn [List.map].
  rewrite apostrophes_lower. cbn [filter].
  now rewrite apostrophes_not_stopword.
Qed.

(** ** quick_summarize: the candidates and their ranking *)

Lemma ranks_before_trans (a b c : scored) :
  ranks_before a b -> ranks_before b c -> ranks_before a c.
Proof. unfold ranks_before. lia. Qed.

Lemma scored_leb_cases (a b : scored) :
  index_part a <> index_part b ->
  (scored_leb b a = true -> ranks_before a b) /\
  (scored_leb b a = false -> ranks_before b a).
Proof.
  destruct a as [[sa ia] ta], b as [[sb ib] tb].
  unfold ranks_before, scored_leb, score_part, index_part; simpl.
  intros Hi.
  destruct (sb <? sa) eqn:E1; [|destruct (sa <? sb) eqn:E2;
    [|destruct (ib <? ia)%nat eqn:E3; [|destruct (ia <? ib)%nat eqn:E4]]];
    repeat match goal with
      | H : (_ <? _) = true |- _ => apply Z.ltb_lt in H
      | H : (_ <? _) = false |- _ => apply Z.ltb_ge in H
      | H : (_ <? _)%nat = true |- _ => apply Nat.ltb_lt in H
      | H : (_ <? _)%nat = false |- _ => apply Nat.ltb_ge in H
      end;
    split; intros; try discriminate; lia.
Qed.

Lemma StronglySorted_app_inv {B : Type} (R : B -> B -> Prop)
  (l1 l2 : list B) (a b : B) :
  StronglySorted R (l1 ++ l2) -> In a l1 -> In b l2 -> R a b.
Proof.
  induction l1 as [|x l1 IH]; simpl; intros Hs Ha Hb; [contradiction|].
  apply StronglySorted_inv in Hs as [Hs Hx].
  destruct Ha as [->|Ha]; [|now apply IH].
  rewrite Forall_forall in Hx. apply Hx, in_or_app. now right.
Qed.

Lemma StronglySorted_map {B C : Type} (f : B -> C) (R : C -> C -> Prop)
  (l : list B) :
  StronglySorted (fun a b => R (f a) (f b)) l ->
  StronglySorted R (List.map f l).
Proof.
  induction 1 as [|x l Hs IH Hx]; simpl; constructor; [assumption|].
  rewrite Forall_forall in *. intros y Hy.
  apply in_map_iff in Hy as [z [<- Hz]]. now apply Hx.
Qed.

Lemma StronglySorted_filter {B : Type} (R : B -> B -> Prop) (p : B -> bool)
  (l : list B) :
  StronglySorted R l -> StronglySorted R (filter p l).
Proof.
  induction 1 as [|x l Hs IH Hx]; simpl; [constructor|].
  destruct (p x); [|assumption]. constructor; [assumption|].
  rewrite Forall_forall in *. intros y Hy. apply filter_In in Hy as [Hy _].
  now apply Hx.
Qed.

(** [enumerate] *)

Lemma enumerate_from_sorted {B : Type} (a : nat) (l : list B) :
  StronglySorted (fun x y => (fst x < fst y)%nat) (enumerate_from a l) /\
  Forall (fun x => (a <= fst x)%nat) (enumerate_from a l).
Proof.
  revert a; induction l as [|x l IH]; intros a; simpl.
  - split; constructor.
  - destruct (IH (S a)) as [Hs Hf]. split.
    + constructor; [assumption|].
      eapply Forall_impl; [|exact Hf]. simpl. intros; lia.
    + constructor; [simpl; lia|].
      eapply Forall_impl; [|exact Hf]. simpl. intros; lia.
Qed.

Lemma enumerate_from_snd {B : Type} (a : nat) (l : list B) :
  List.map snd (enumerate_from a l) = l.
Proof. revert a; induction l as [|x l IH]; intros a; simpl; congruence. Qed.

Lemma enumerate_from_In {B : Type} (a : nat) (l : list B) (i : nat) (x : B) :
  In (i, x) (enumerate_from a l) <->
  (a <= i)%nat /\ nth_error l (i - a) = Some x.
Proof.
  revert a; induction l as [|y l IH]; intros a; simpl.
  - split; [contradiction|]. intros [_ H]. now destruct (i - a)%nat.
  - rewrite IH. split.
    + intros [E|[Hle Hn]].
      * injection E as -> ->. split; [lia|]. now rewrite Nat.sub_diag.
      * split; [lia|]. replace (i - a)%nat with (S (i - S a)) by lia.
        exact Hn.
    + intros [Hle Hn]. destruct (i - a)%nat as [|m] eqn:E.
      * left. injection Hn as ->. f_equal. lia.
      * right. split; [lia|]. replace (i - S a)%nat with m by lia.
        exact Hn.
Qed.

Lemma enumerate_In {B : Type} (l : list B) (i : nat) (x : B) :
  In (i, x) (enumerate l) <-> nth_error l i = Some x.
Proof.
  unfold enumerate. rewrite enumerate_from_In, Nat.sub_0_r.
  split; [tauto|]. split; [lia|assumption].
Qed.

(** Every candidate is [(score, i, s)] for the sentence [s] at index [i]. *)
Lemma scores_of_In (text : str) (c : scored) :
  In c (scores_of text) <->
  nth_error (sents_of text) (index_part c) = Some (sentence_part c) /\
  score_part c = score_of (freq_of text) (sentence_part c).
Proof.
  unfold scores_of. rewrite in_map_iff. split.
  - intros [[i s] [<- H]]. apply enumerate_In in H. now split.
  - destruct c as [[sc i] s]. cbn. intros [H ->].
    exists (i, s). split; [reflexivity|]. now apply enumerate_In.
Qed.

Lemma scores_of_by_index (text : str) :
  StronglySorted (fun a b => (index_part a < index_part b)%nat)
    (scores_of text).
Proof.
  unfold scores_of.
  apply StronglySorted_map with
    (f := fun '(i, s) => (score_of (freq_of text) s, i, s))
    (R := fun a b => (index_part a < index_part b)%nat).
  eapply StronglySorted_weaken;
    [|apply (proj1 (enumerate_from_sorted 0 (sents_of text)))].
  now intros [i s] [j t].
Qed.

(** [sorted(scores, reverse=True)] puts the candidates by score, greatest
    first, and those of one score by index, greatest first. *)
Lemma ranked_of_sorted (text : str) :
  StronglySorted ranks_before (ranked_of text).
Proof.
  unfold ranked_of.
  apply (sort_strict (fun a b => scored_leb b a) ranks_before
           ranks_before_trans).
  eapply StronglySorted_weaken; [|apply scores_of_by_index].
  intros a b Hab. apply scored_leb_cases. cbv beta in Hab. lia.
Qed.

Lemma ranked_of_perm (text : str) :
  Permutation (scores_of text) (ranked_of text).
Proof. apply sort_perm. Qed.

(** A slice [xs[:k]] is a prefix of [xs]. *)
Lemma slice_to_prefix {B : Type} (k : Z) (xs : list B) :
  exists rest, xs = slice_to k xs ++ rest.
Proof.
  unfold slice_to. destruct (k <? 0).
  - exists (skipn (length xs - Z.to_nat (- k)) xs).
    now rewrite firstn_skipn.
  - exists (skipn (Z.to_nat k) xs). now rewrite firstn_skipn.
Qed.

Lemma slice_to_length {B : Type} (k : Z) (xs : list B) :
  0 <= k -> Z.of_nat (length (slice_to k xs)) <= k.
Proof.
  intros Hk. unfold slice_to. destruct (k <? 0) eqn:E.
  - apply Z.ltb_lt in E. lia.
  - rewrite length_firstn. lia.
Qed.

(** ** quick_summarize: the chosen sentences *)

Lemma sort_sorted_id {B : Type} (le : B -> B -> bool) (l : list B) :
  StronglySorted (fun a b => le a b = true) l -> sort le l = l.
Proof.
  induction 1 as [|x l Hs IH Hx]; simpl; [reflexivity|].
  rewrite IH. destruct l as [|y l]; [reflexivity|]. simpl.
  apply Forall_inv in Hx. now rewrite Hx.
Qed.

(** [chosen] is [enumerate(sents)] restricted to the sentences whose text
    is in [top]: the final sort by index finds them in order already. *)
Lemma chosen_of_filter (text : str) (k : Z) :
  chosen_of text k =
  filter (fun x => contains (top_of text k) (snd x))
    (enumerate (sents_of text)).
Proof.
  unfold chosen_of, scores_of.
  set (top := top_of text k). set (freq := freq_of text).
  assert (E : forall l : list (nat * str),
    List.map (fun '(_, i, s) => (i, s))
      (filter (fun '(_, _, s) => contains top s)
         (List.map (fun '(i, s) => (score_of freq s, i, s)) l)) =
    filter (fun x => contains top (snd x)) l).
  { induction l as [|[i s] l IH]; simpl; [reflexivity|].
    destruct (contains top s); simpl; now rewrite IH. }
  rewrite E. unfold sorted_by_key. apply sort_sorted_id.
  eapply StronglySorted_weaken;
    [|apply StronglySorted_filter, (proj1 (enumerate_from_sorted 0 _))].
  intros a b Hab. apply Z.leb_le. simpl in Hab. lia.
Qed.

Lemma chosen_of_sorted (text : str) (k : Z) :
  StronglySorted (fun a b => (fst a < fst b)%nat) (chosen_of text k).
Proof.
  rewrite chosen_of_filter.
  apply StronglySorted_filter, (proj1 (enumerate_from_sorted 0 _)).
Qed.

(** A sentence is chosen when its text is the text of a sentence of [top]. *)
Lemma chosen_of_In (text : str) (k : Z) (i : nat) (s : str) :
  In (i, s) (chosen_of text k) <->
  nth_error (sents_of text) i = Some s /\ In s (top_of text k).
Proof.
  rewrite chosen_of_filter, filter_In, enumerate_In. simpl.
  now rewrite contains_In.
Qed.

Lemma subseq_In {B : Type} (l1 l2 : list B) (x : B) :
  subseq l1 l2 -> In x l1 -> In x l2.
Proof.
  induction 1 as [|y l1 l2 _ IH|y l1 l2 _ IH]; simpl; intros H; auto.
  destruct H; auto.
Qed.

Lemma subseq_length {B : Type} (l1 l2 : list B) :
  subseq l1 l2 -> (length l1 <= length l2)%nat.
Proof. induction 1; simpl; lia. Qed.

Lemma subseq_filter {B : Type} (p : B -> bool) (l1 l2 : list B) :
  subseq l1 l2 -> subseq (filter p l1) (filter p l2).
Proof.
  induction 1 as [|y l1 l2 _ IH|y l1 l2 _ IH]; simpl.
  - constructor.
  - destruct (p y); [now constructor|assumption].
  - destruct (p y); [now constructor|assumption].
Qed.

Lemma subseq_count (l1 l2 : list str) (s : str) :
  subseq l1 l2 -> count_of s l1 <= count_of s l2.
Proof.
  intros H. unfold count_of.
  apply (subseq_filter (str_eqb s)), subseq_length in H. lia.
Qed.

Lemma filter_enumerate_subseq {B : Type} (p : nat * B -> bool) (a : nat)
  (l : list B) :
  subseq (List.map snd (filter p (enumerate_from a l))) l.
Proof.
  revert a; induction l as [|x l IH]; intros a; simpl; [constructor|].
  destruct (p (a, x)); simpl; constructor; apply IH.
Qed.

Lemma chosen_of_subseq (text : str) (k : Z) :
  subseq (List.map snd (chosen_of text k)) (sents_of text).
Proof. rewrite chosen_of_filter. apply filter_enumerate_subseq. Qed.

(** The three ways out of [quick_summarize]. *)
Lemma quick_summarize_short (text : str) (k : Z) :
  too_short text = true -> quick_summarize text k = text.
Proof. unfold quick_summarize. now intros ->. Qed.

Lemma quick_summarize_few (text : str) (k : Z) :
  Z.of_nat (length (sents_of text)) <= k -> quick_summarize text k = text.
Proof.
  unfold quick_summarize. intros H. apply Z.leb_le in H. rewrite H.
  now destruct (too_short text).
Qed.

Lemma quick_summarize_chosen (text : str) (k : Z) :
  too_short text = false -> k < Z.of_nat (length (sents_of text)) ->
  quick_summarize text k = join (lit " ") (List.map snd (chosen_of text k)).
Proof.
  unfold quick_summarize. intros -> H. apply Z.leb_gt in H. now rewrite H.
Qed.

(** ** quick_summarize: ties *)

(** C1, counterexample: the three sentences of [tie_text] all score 21; with
    [max_sentences = 1] the last one is selected and the first one is not. *)
Lemma tie_text_selects_last :
  scores_of tie_text =
    [(21, 0%nat, lit "alpha beta gamma delta epsilon zeta eta.");
     (21, 1%nat, lit "eta zeta epsilon delta gamma beta alpha.");
     (21, 2%nat, lit "beta alpha gamma delta epsilon zeta eta.")] /\
  quick_summarize tie_text 1 = lit "beta alpha gamma delta epsilon zeta eta." /\
  ~ lower_index_wins tie_text 1.
Proof.
  split; [vm_compute; reflexivity|]. split; [vm_compute; reflexivity|].
  intros H.
  specialize (H 21 0%nat 2%nat
                (lit "alpha beta gamma delta epsilon zeta eta.")
                (lit "beta alpha gamma delta epsilon zeta eta.")).
  assert (Hin : In (lit "alpha beta gamma delta epsilon zeta eta.")
                  (top_of tie_text 1)).
  { apply H.
    - lia.
    - vm_compute. left. reflexivity.
    - vm_compute. right. right. left. reflexivity.
    - vm_compute. left. reflexivity. }
  vm_compute in Hin. destruct Hin as [Hin|[]]. discriminate Hin.
Qed.

(** C1, amended: [sorted(scores, reverse=True)] orders the candidates by
    score, greatest first, and candidates of one score by index, greatest
    first; [top] is cut from the front of that list, so of two sentences
    with one score the one with the higher index is in the slice whenever
    the other is. *)
Theorem higher_index_wins_ties (text : str) (max_sentences : Z)
  (sc : Z) (i j : nat) (si sj : str) :
  (i < j)%nat ->
  In (sc, j, sj) (scores_of text) ->
  In (sc, i, si) (slice_to max_sentences (ranked_of text)) ->
  Permutation (scores_of text) (ranked_of text) /\
  StronglySorted ranks_before (ranked_of text) /\
  In (sc, j, sj) (slice_to max_sentences (ranked_of text)) /\
  In sj (top_of text max_sentences) /\
  In (j, sj) (chosen_of text max_sentences).
Proof.
  intros Hij Hj Hi.
  pose proof (ranked_of_sorted text) as Hs.
  pose proof (ranked_of_perm text) as Hp.
  assert (Hin : In (sc, j, sj) (slice_to max_sentences (ranked_of text))).
  { destruct (slice_to_prefix max_sentences (ranked_of text)) as [rest E].
    apply (Permutation_in _ Hp) in Hj. rewrite E in Hj, Hs.
    apply in_app_or in Hj as [Hj|Hj]; [assumption|].
    pose proof (StronglySorted_app_inv _ _ _ _ _ Hs Hi Hj) as Hr.
    unfold ranks_before, score_part, index_part in Hr. simpl in Hr. lia. }
  assert (Htop : In sj (top_of text max_sentences)).
  { unfold top_of. apply in_map_iff. now exists (sc, j, sj). }
  repeat split; try assumption.
  apply chosen_of_In. split; [|exact Htop].
  now apply scores_of_In in Hj as [Hj _].
Qed.

Lemma higher_index_wins_ties_witness :
  In (21, 2%nat, lit "beta alpha gamma delta epsilon zeta eta.")
    (slice_to 2 (ranked_of tie_text)) /\
  In (lit "beta alpha gamma delta epsilon zeta eta.") (top_of tie_text 2).
Proof.
  refine ((fun H => conj (proj1 H) (proj1 (proj2 H))) (proj2 (proj2
    (higher_index_wins_ties tie_text 2 21 1%nat 2%nat
       (lit "eta zeta epsilon delta gamma beta alpha.")
       (lit "beta alpha gamma delta epsilon zeta eta.") _ _ _)))).
  - lia.
  - vm_compute. right. right. left. reflexivity.
  - vm_compute. right. left. reflexivity.
Defined.

(** ** quick_summarize: order and origin of the summary's sentences *)

Lemma In_split_sorted {B : Type} (R : B -> B -> Prop) (l : list B) (x y : B) :
  StronglySorted R l -> In x l -> In y l -> R x y -> ~ R y x -> x <> y ->
  exists a b c, l = a ++ x :: b ++ y :: c.
Proof.
  intros Hs Hx Hy Hxy Hyx Hne.
  apply in_split in Hx as [a [r ->]].
  apply in_app_or in Hy as [Hy|[Hy|Hy]].
  - exfalso. apply Hyx.
    apply (StronglySorted_app_inv R a (x :: r) y x Hs Hy). now left.
  - congruence.
  - apply in_split in Hy as [b [c ->]]. now exists a, b, c.
Qed.

(** Every piece of the split is a part of the string that was split. *)
Lemma occurs_in_refl (t : str) : occurs_in t t.
Proof. exists [], []. now rewrite app_nil_r. Qed.

Lemma occurs_in_trans (p q t : str) :
  occurs_in p q -> occurs_in q t -> occurs_in p t.
Proof.
  intros (a & b & ->) (c & d & ->). exists (c ++ a), (b ++ d).
  now rewrite <- !app_assoc.
Qed.

Lemma re_split_scan_occurs (in_sep after_terminal : bool) (cur s p : str) :
  In p (re_split_scan in_sep after_terminal cur s) ->
  occurs_in p (rev cur ++ s).
Proof.
  revert in_sep after_terminal cur.
  induction s as [|c s IH]; intros in_sep after_terminal cur; simpl.
  - intros [<-|[]]. rewrite app_nil_r. apply occurs_in_refl.
  - assert (Hin : forall b1 b2, In p (re_split_scan b1 b2 [] s) ->
                  occurs_in p (rev cur ++ c :: s)).
    { intros b1 b2 H. apply IH in H. simpl in H.
      eapply occurs_in_trans; [exact H|]. exists (rev cur ++ [c]), [].
      now rewrite app_nil_r, <- app_assoc. }
    assert (Hpush : forall b1 b2, In p (re_split_scan b1 b2 (c :: cur) s) ->
                    occurs_in p (rev cur ++ c :: s)).
    { intros b1 b2 H. apply IH in H. simpl in H.
      now rewrite <- app_assoc in H. }
    destruct (isspace c); [destruct in_sep; [|destruct after_terminal]|];
      eauto.
    intros [<-|H]; [|eauto]. now exists [], (c :: s).
Qed.

Lemma lstrip_occurs (s : str) : occurs_in (lstrip s) s.
Proof.
  induction s as [|c s IH]; simpl; [apply occurs_in_refl|].
  destruct (isspace c); [|apply occurs_in_refl].
  eapply occurs_in_trans; [exact IH|]. exists [c], []. now rewrite app_nil_r.
Qed.

Lemma strip_occurs (s : str) : occurs_in (strip s) s.
Proof.
  unfold strip, rstrip.
  eapply occurs_in_trans; [|apply lstrip_occurs].
  destruct (lstrip_occurs (rev (lstrip s))) as (a & b & E).
  exists (rev b), (rev a).
  apply (f_equal (@rev char)) in E.
  rewrite rev_involutive, !rev_app_distr, <- app_assoc in E. exact E.
Qed.

Lemma sents_of_occurs (text s : str) :
  In s (sents_of text) -> occurs_in s text.
Proof.
  intros H. apply re_split_scan_occurs in H. simpl in H.
  eapply occurs_in_trans; [exact H|apply strip_occurs].
Qed.

(** ** quick_summarize: how many sentences are chosen *)

Lemma filter_enumerate_snd {B : Type} (p : B -> bool) (a : nat) (l : list B) :
  List.map snd (filter (fun x => p (snd x)) (enumerate_from a l)) = filter p l.
Proof.
  revert a; induction l as [|x l IH]; intros a; simpl; [reflexivity|].
  destruct (p x); simpl; now rewrite IH.
Qed.

(** The texts of the chosen sentences: the sentences whose text is in
    [top], in document order. *)
Lemma chosen_of_sentences (text : str) (k : Z) :
  List.map snd (chosen_of text k) =
  filter (contains (top_of text k)) (sents_of text).
Proof. rewrite chosen_of_filter. apply filter_enumerate_snd. Qed.

Lemma top_of_length (text : str) (k : Z) :
  0 <= k -> Z.of_nat (length (top_of text k)) <= k.
Proof.
  intros Hk. unfold top_of. rewrite length_map. now apply slice_to_length.
Qed.

Lemma ranked_of_length (text : str) :
  length (ranked_of text) = length (sents_of text).
Proof.
  unfold ranked_of, scores_of, enumerate.
  rewrite sort_length, length_map, <- (length_map snd), enumerate_from_snd.
  reflexivity.
Qed.

(** When no sentence occurs twice in the document, no more sentences are
    chosen than [top] holds. *)
Lemma chosen_of_length_distinct (text : str) (k : Z) :
  NoDup (sents_of text) ->
  (length (chosen_of text k) <= length (top_of text k))%nat.
Proof.
  intros Hnd. rewrite <- (length_map snd), chosen_of_sentences.
  apply NoDup_incl_length; [now apply NoDup_filter|].
  intros s Hs. apply filter_In in Hs as [_ Hs]. now apply contains_In.
Qed.

Lemma chosen_of_bounded_distinct (text : str) (k : Z) :
  NoDup (sents_of text) -> 0 <= k ->
  Z.of_nat (length (chosen_of text k)) <= k.
Proof.
  intros Hnd Hk. pose proof (chosen_of_length_distinct text k Hnd).
  pose proof (top_of_length text k Hk). lia.
Qed.

(** C2, the code at a document with a repeated sentence: with
    [max_sentences = 1] the document does not take an early return, [top]
    holds one sentence, and all three copies of it are chosen. *)
Lemma repeated_text_exceeds_max :
  too_short repeated_text = false /\
  length (sents_of repeated_text) = 4%nat /\
  top_of repeated_text 1 = [lit "The quick brown fox jumps over the lazy dog."] /\
  List.map fst (chosen_of repeated_text 1) = [0%nat; 2%nat; 3%nat] /\
  quick_summarize repeated_text 1 =
  lit "The quick brown fox jumps over the lazy dog. The quick brown fox jumps over the lazy dog. The quick brown fox jumps over the lazy dog.".
Proof. vm_compute. repeat split. Qed.

(** ** quick_summarize: a non-positive [max_sentences] *)

Lemma re_split_scan_length (in_sep after_terminal : bool) (cur s : str) :
  (1 <= length (re_split_scan in_sep after_terminal cur s))%nat.
Proof.
  revert in_sep after_terminal cur.
  induction s as [|c s IH]; intros in_sep after_terminal cur; simpl; [lia|].
  destruct (isspace c); [destruct in_sep; [|destruct after_terminal]|];
    simpl; try apply IH; lia.
Qed.

Lemma sents_of_length (text : str) : (1 <= length (sents_of text))%nat.
Proof. apply re_split_scan_length. Qed.

(** C3, counterexample: on [tie_text], [max_sentences = 0] gives the empty
    summary and [max_sentences = -1] gives two sentences, where
    [max_sentences = 1] gives one. *)
Lemma tie_text_not_clamped :
  quick_summarize tie_text 0 = [] /\
  quick_summarize tie_text (-1) =
    lit "eta zeta epsilon delta gamma beta alpha. beta alpha gamma delta epsilon zeta eta." /\
  quick_summarize tie_text 1 = lit "beta alpha gamma delta epsilon zeta eta." /\
  ~ clamped_to_one tie_text 0 /\
  ~ clamped_to_one tie_text (-1).
Proof.
  unfold clamped_to_one.
  split; [vm_compute; reflexivity|]. split; [vm_compute; reflexivity|].
  split; [vm_compute; reflexivity|].
  split; vm_compute; discriminate.
Qed.

(** C3, amended: a non-positive [max_sentences] raises nothing and is not
    clamped.  A document that is empty or shorter than 20 words is returned
    unchanged.  Any other document goes down the selecting path, since it has
    at least one sentence: with [max_sentences = 0] the slice [top] is empty
    and so is the summary; with a negative [max_sentences] the slice leaves
    out the last [- max_sentences] of the ranked candidates. *)
Theorem nonpositive_max_sentences (text : str) (max_sentences : Z) :
  max_sentences <= 0 ->
  (too_short text = true -> quick_summarize text max_sentences = text) /\
  (too_short text = false ->
   quick_summarize text max_sentences =
     join (lit " ") (List.map snd (chosen_of text max_sentences)) /\
   (max_sentences = 0 ->
    top_of text max_sentences = [] /\
    quick_summarize text max_sentences = []) /\
   (max_sentences < 0 ->
    top_of text max_sentences =
    List.map sentence_part
      (firstn (length (sents_of text) - Z.to_nat (- max_sentences))
         (ranked_of text)))).
Proof.
  intros Hk. split; [apply quick_summarize_short|].
  intros Hshort. pose proof (sents_of_length text) as Hlen.
  assert (E : quick_summarize text max_sentences =
              join (lit " ") (List.map snd (chosen_of text max_sentences)))
    by (apply quick_summarize_chosen; [assumption|lia]).
  split; [exact E|]. split.
  - intros ->. assert (Ht : top_of text 0 = []) by reflexivity.
    split; [exact Ht|].
    rewrite E, chosen_of_sentences, Ht. clear.
    induction (sents_of text) as [|s l IH]; [reflexivity|exact IH].
  - intros Hneg. unfold top_of, slice_to.
    apply Z.ltb_lt in Hneg. rewrite Hneg, ranked_of_length.
    apply map_ext. now intros [[sc i] s].
Qed.

Lemma nonpositive_max_sentences_witness :
  quick_summarize tie_text 0 = [] /\
  top_of tie_text (-1) =
  List.map sentence_part
    (firstn (length (sents_of tie_text) - Z.to_nat (- (-1)))
       (ranked_of tie_text)).
Proof.
  split.
  - refine (proj2 (proj1 (proj2 (proj2
      (nonpositive_max_sentences tie_text 0 _) _)) _)).
    + lia.
    + vm_compute. reflexivity.
    + reflexivity.
  - refine (proj2 (proj2 (proj2
      (nonpositive_max_sentences tie_text (-1) _) _)) _).
    + lia.
    + vm_compute. reflexivity.
    + lia.
Defined.

(** ** quick_summarize: when the document comes back unchanged *)

Lemma too_short_iff (text : str) :
  too_short text = true <->
  text = [] \/ Z.of_nat (length (split text)) < 20.
Proof.
  unfold too_short. destruct text as [|c text].
  - split; auto.
  - rewrite Z.ltb_lt. split; [auto|]. intros [H|H]; [discriminate|assumption].
Qed.

(** Under each of the three conditions the document is returned as it is. *)
Lemma fallback_returns_input (text : str) (max_sentences : Z) :
  fallback_condition text max_sentences ->
  quick_summarize text max_sentences = text.
Proof.
  intros [H|[H|H]].
  - apply quick_summarize_short, too_short_iff. now left.
  - apply quick_summarize_short, too_short_iff. now right.
  - now apply quick_summarize_few.
Qed.

Lemma join_space_length (ss : list str) :
  ss <> [] -> S (length (join (lit " ") ss)) = weight ss.
Proof.
  induction ss as [|p ss IH]; [congruence|]. intros _.
  destruct ss as [|q r].
  - simpl. lia.
  - change (join (lit " ") (p :: q :: r))
      with (p ++ lit " " ++ join (lit " ") (q :: r)).
    rewrite !length_app. change (weight (p :: q :: r))
      with (S (length p + weight (q :: r))).
    rewrite <- IH by discriminate.
    change (length (lit " ")) with 1%nat. lia.
Qed.

Lemma subseq_weight (l1 l2 : list str) :
  subseq l1 l2 -> (weight l1 + (length l2 - length l1) <= weight l2)%nat.
Proof. induction 1; cbn [weight length]; lia. Qed.

Lemma re_split_scan_weight (in_sep after_terminal : bool) (cur s : str) :
  (weight (re_split_scan in_sep after_terminal cur s)
   <= S (length cur + length s))%nat.
Proof.
  revert in_sep after_terminal cur.
  induction s as [|c s IH]; intros in_sep after_terminal cur; simpl.
  - rewrite length_rev. lia.
  - destruct (isspace c); [destruct in_sep; [|destruct after_terminal]|].
    + specialize (IH true false []). simpl in IH. lia.
    + specialize (IH true false []). simpl in *. rewrite length_rev. lia.
    + specialize (IH false false (c :: cur)). simpl in IH. lia.
    + specialize (IH false (is_terminal c) (c :: cur)). simpl in IH. lia.
Qed.

Lemma lstrip_length (s : str) : (length (lstrip s) <= length s)%nat.
Proof.
  induction s as [|c s IH]; simpl; [lia|].
  destruct (isspace c); simpl; lia.
Qed.

Lemma strip_length (s : str) : (length (strip s) <= length s)%nat.
Proof.
  unfold strip, rstrip. rewrite length_rev.
  pose proof (lstrip_length (rev (lstrip s))) as H1.
  pose proof (lstrip_length s) as H2. rewrite length_rev in H1. lia.
Qed.

Lemma sents_of_weight (text : str) :
  (weight (sents_of text) <= S (length text))%nat.
Proof.
  pose proof (re_split_scan_weight false false [] (strip text)) as H.
  pose proof (strip_length text). unfold sents_of, re_split_sentences.
  simpl in H. lia.
Qed.

Lemma top_of_short (text : str) (k : Z) :
  k < Z.of_nat (length (sents_of text)) ->
  (length (top_of text k) < length (sents_of text))%nat.
Proof.
  intros Hk. pose proof (sents_of_length text) as Hn.
  unfold top_of, slice_to. rewrite length_map.
  destruct (k <? 0) eqn:E; rewrite length_firstn, ranked_of_length.
  - apply Z.ltb_lt in E. lia.
  - apply Z.ltb_ge in E. lia.
Qed.

(** When no sentence occurs twice, the selecting path returns a string
    shorter than the document, so the document comes back unchanged only
    under one of the three conditions. *)
Lemma unchanged_only_on_fallback_distinct (text : str) (max_sentences : Z) :
  NoDup (sents_of text) ->
  quick_summarize text max_sentences = text ->
  fallback_condition text max_sentences.
Proof.
  intros Hnd Heq. unfold fallback_condition.
  destruct (too_short text) eqn:Hshort.
  { apply too_short_iff in Hshort. tauto. }
  destruct (Z_le_gt_dec (Z.of_nat (length (sents_of text))) max_sentences)
    as [Hle|Hgt]; [tauto|]. exfalso.
  rewrite quick_summarize_chosen in Heq by (assumption || lia).
  pose proof (chosen_of_length_distinct text max_sentences Hnd) as Hc.
  pose proof (top_of_short text max_sentences ltac:(lia)) as Ht.
  pose proof (subseq_weight _ _ (chosen_of_subseq text max_sentences)) as Hw.
  pose proof (sents_of_weight text) as Hs.
  rewrite length_map in Hw.
  destruct (List.map snd (chosen_of text max_sentences)) as [|p ss] eqn:E.
  - simpl in Heq. subst text. discriminate Hshort.
  - pose proof (join_space_length (p :: ss) ltac:(discriminate)) as Hj.
    rewrite Heq in Hj. lia.
Qed.

(** C4, the code at a document of one sentence said three times: it has 27
    words and 3 sentences, so with [max_sentences = 1] none of the three
    conditions holds; the selecting path chooses all three copies and their
    join is the document again. *)
Lemma thrice_text_unchanged :
  length (split thrice_text) = 27%nat /\
  length (sents_of thrice_text) = 3%nat /\
  List.map fst (chosen_of thrice_text 1) = [0%nat; 1%nat; 2%nat] /\
  quick_summarize thrice_text 1 = thrice_text /\
  ~ fallback_condition thrice_text 1.
Proof.
  split; [vm_compute; reflexivity|]. split; [vm_compute; reflexivity|].
  split; [vm_compute; reflexivity|]. split; [vm_compute; reflexivity|].
  intros [H|[H|H]]; vm_compute in H; [discriminate H|discriminate H|].
  now apply H.
Qed.

(** ** The scenarios of the specification *)

Example fallback_scenario :
  quick_summarize (lit "Hi. Bye.") 3 = lit "Hi. Bye.".
Proof.
  apply fallback_returns_input. right. left. vm_compute. reflexivity.
Qed.

Example short_input_scenario :
  quick_summarize (lit "Too short text.") 3 = lit "Too short text.".
Proof. vm_compute. reflexivity. Qed.

Example filtering_scenario :
  top_words (lit "The cat sat on the mat and the cat ran") 3 =
  [(lit "cat", 2); (lit "sat", 1); (lit "mat", 1)].
Proof. vm_compute. reflexivity. Qed.

Example all_stopwords_scenario :
  top_words (lit "the and of the") 10 = [].
Proof. vm_compute. reflexivity. Qed.

(** ** Further properties of quick_summarize *)

(** X1: whatever the document and [max_sentences], the string that
    quick_summarize returns is never longer than the document. *)
Theorem summary_not_longer (text : str) (max_sentences : Z) :
  (length (quick_summarize text max_sentences) <= length text)%nat.
Proof.
  unfold quick_summarize. destruct (too_short text); [lia|].
  destruct (_ <=? _); [lia|].
  pose proof (subseq_weight _ _ (chosen_of_subseq text max_sentences)) as Hw.
  pose proof (sents_of_weight text) as Hs.
  destruct (List.map snd (chosen_of text max_sentences)) as [|p ss] eqn:E.
  - simpl. lia.
  - pose proof (join_space_length (p :: ss) ltac:(discriminate)) as Hj. lia.
Qed.

(** X2: no sentence that is left out of the [max_sentences] best-ranked
    entries has a higher score than a sentence among them. *)
Theorem top_outscores_rest (text : str) (max_sentences : Z) (a b : scored) :
  In a (slice_to max_sentences (ranked_of text)) ->
  In b (scores_of text) ->
  ~ In b (slice_to max_sentences (ranked_of text)) ->
  score_part b <= score_part a.
Proof.
  intros Ha Hb Hnb.
  pose proof (ranked_of_sorted text) as Hs.
  destruct (slice_to_prefix max_sentences (ranked_of text)) as [rest E].
  apply (Permutation_in _ (ranked_of_perm text)) in Hb.
  rewrite E in Hb, Hs. apply in_app_or in Hb as [Hb|Hb]; [contradiction|].
  pose proof (StronglySorted_app_inv _ _ _ _ _ Hs Ha Hb) as Hr.
  unfold ranks_before in Hr. lia.
Qed.

Lemma top_outscores_rest_witness :
  score_part (8, 0%nat, lit "The cat sat on the mat near the door.")
  <= score_part (9, 3%nat, lit "The cat and the dog sleep by the door at night.").
Proof.
  apply (top_outscores_rest sample_text 2).
  - vm_compute. right. left. reflexivity.
  - vm_compute. left. reflexivity.
  - vm_compute. intros [H|[H|[]]]; discriminate H.
Defined.

Lemma sum_map_filter {B : Type} (f : B -> Z) (p : B -> bool) (l : list B) :
  (forall x, In x l -> p x = false -> f x = 0) ->
  sum (List.map f l) = sum (List.map f (filter p l)).
Proof.
  induction l as [|x l IH]; intros H; [reflexivity|]. cbn [List.map filter].
  rewrite sum_cons, IH by (intros; apply H; [now right|assumption]).
  destruct (p x) eqn:E.
  - cbn [List.map]. now rewrite sum_cons.
  - rewrite (H x) by (now left || assumption). lia.
Qed.

Lemma count_of_absent (w : str) (words : list str) :
  ~ In w words -> count_of w words = 0.
Proof.
  unfold count_of. induction words as [|v ws IH]; intros H; [reflexivity|].
  cbn [filter]. destruct (str_eqb w v) eqn:E.
  - apply str_eqb_eq in E. subst. exfalso. apply H. now left.
  - apply IH. intros Hin. apply H. now right.
Qed.

(** X3: the score of a sentence is the number of occurrences in the whole
    document of its words that are no stopwords, added up word by word
    (a word that the sentence repeats counts each time); its stopwords add
    nothing. *)
Theorem score_counts_content_words (text s : str) :
  score_of (freq_of text) s =
  sum (List.map (fun w => count_of w (content_words text)) (content_words s)).
Proof.
  unfold score_of, content_words at 2.
  rewrite <- sum_map_filter.
  - f_equal. apply map_ext. intros w. apply Counter_get.
  - intros w _ Hw. apply negb_false_iff in Hw.
    apply count_of_absent. intros Hin. apply content_words_In in Hin.
    destruct Hin as [_ Hin]. congruence.
Qed.

Lemma map_firstn {B C : Type} (f : B -> C) (n : nat) (l : list B) :
  List.map f (firstn n l) = firstn n (List.map f l).
Proof.
  revert l; induction n as [|n IH]; intros [|x l]; simpl; congruence.
Qed.

Lemma NoDup_firstn {B : Type} (n : nat) (l : list B) :
  NoDup l -> NoDup (firstn n l).
Proof.
  intros H. rewrite <- (firstn_skipn n l) in H.
  now apply NoDup_app_remove_r in H.
Qed.

Lemma scores_of_sentences (text : str) :
  List.map sentence_part (scores_of text) = sents_of text.
Proof.
  unfold scores_of, enumerate. rewrite map_map.
  rewrite <- (enumerate_from_snd 0 (sents_of text)) at 2.
  apply map_ext. now intros [i s].
Qed.

Lemma top_of_firstn (text : str) (k : Z) :
  0 <= k ->
  top_of text k =
  firstn (Z.to_nat k) (List.map sentence_part (ranked_of text)).
Proof.
  intros Hk. unfold top_of, slice_to.
  destruct (k <? 0) eqn:E; [apply Z.ltb_lt in E; lia|].
  rewrite <- map_firstn. apply map_ext. now intros [[sc i] s].
Qed.

Lemma ranked_sentences_perm (text : str) :
  Permutation (sents_of text) (List.map sentence_part (ranked_of text)).
Proof.
  rewrite <- scores_of_sentences. apply Permutation_map, ranked_of_perm.
Qed.

Lemma top_of_incl (text : str) (k : Z) (s : str) :
  In s (top_of text k) -> In s (sents_of text).
Proof.
  unfold top_of. intros H. apply in_map_iff in H as [[[sc i] t] [<- H]].
  destruct (slice_to_prefix k (ranked_of text)) as [rest E].
  assert (Hin : In (sc, i, t) (ranked_of text))
    by (rewrite E; apply in_or_app; now left).
  apply (Permutation_in _ (Permutation_sym (ranked_of_perm text))) in Hin.
  apply scores_of_In in Hin as [Hin _]. now apply nth_error_In in Hin.
Qed.

Lemma sample_text_distinct : NoDup (sents_of sample_text).
Proof.
  vm_compute. repeat constructor; simpl; intuition discriminate.
Qed.

(** X4: when the sentences of the document are pairwise different and
    [max_sentences] is at least 0 and less than their number, exactly
    [max_sentences] sentences are chosen. *)
Theorem chosen_exactly_max_distinct (text : str) (max_sentences : Z) :
  NoDup (sents_of text) ->
  0 <= max_sentences < Z.of_nat (length (sents_of text)) ->
  Z.of_nat (length (chosen_of text max_sentences)) = max_sentences.
Proof.
  intros Hnd Hk.
  assert (Htop : NoDup (top_of text max_sentences)).
  { rewrite top_of_firstn by lia. apply NoDup_firstn.
    apply (Permutation_NoDup (ranked_sentences_perm text) Hnd). }
  assert (Hlen : length (top_of text max_sentences) = Z.to_nat max_sentences).
  { rewrite top_of_firstn by lia.
    rewrite length_firstn, length_map, ranked_of_length. lia. }
  rewrite <- (length_map snd), chosen_of_sentences.
  assert (Hp : Permutation (filter (contains (top_of text max_sentences))
                              (sents_of text))
                 (top_of text max_sentences)).
  { apply NoDup_Permutation; [now apply NoDup_filter|assumption|].
    intros s. rewrite filter_In, contains_In. split; [tauto|].
    intros H. split; [now apply top_of_incl in H|assumption]. }
  rewrite (Permutation_length Hp), Hlen. lia.
Qed.

Lemma chosen_exactly_max_distinct_witness :
  Z.of_nat (length (chosen_of sample_text 2)) = 2.
Proof.
  apply (chosen_exactly_max_distinct sample_text 2).
  - exact sample_text_distinct.
  - vm_compute. split; [discriminate|reflexivity].
Defined.

(** X5: when the sentences of the document are pairwise different,
    quick_summarize returns the document unchanged exactly when one of its
    two early returns is taken: the document is empty or has fewer than 20
    words, or it has at most [max_sentences] sentences. *)
Theorem unchanged_iff_fallback_distinct (text : str) (max_sentences : Z) :
  NoDup (sents_of text) ->
  quick_summarize text max_sentences = text <->
  fallback_condition text max_sentences.
Proof.
  intros Hnd. split.
  - now apply unchanged_only_on_fallback_distinct.
  - apply fallback_returns_input.
Qed.

Lemma unchanged_iff_fallback_distinct_witness :
  quick_summarize sample_text 2 = sample_text <->
  fallback_condition sample_text 2.
Proof.
  apply (unchanged_iff_fallback_distinct sample_text 2).
  exact sample_text_distinct.
Defined.

(** ** The sentences of a document *)

Lemma space_not_terminal (c : char) : isspace c = true -> is_terminal c = false.
Proof.
  unfold is_terminal. intros H.
  destruct (N.eqb_spec c 46) as [->|_]; [discriminate H|].
  destruct (N.eqb_spec c 33) as [->|_]; [discriminate H|].
  destruct (N.eqb_spec c 63) as [->|_]; [discriminate H|]. reflexivity.
Qed.

Lemma quiet_has_break (a : bool) (p : str) :
  quiet a p =
  negb (a && match p with [] => false | c :: _ => isspace c end)
  && negb (has_break p).
Proof.
  revert a; induction p as [|c p IH]; intros a.
  - simpl. now rewrite andb_false_r.
  - cbn [quiet has_break]. rewrite IH. f_equal.
    destruct p as [|d p].
    + now rewrite andb_false_r.
    + now rewrite negb_orb.
Qed.

Lemma quiet_false_has_break (p : str) : quiet false p = negb (has_break p).
Proof. rewrite quiet_has_break. reflexivity. Qed.

Lemma quiet_snoc (a : bool) (p : str) (c : char) :
  quiet a (p ++ [c]) = quiet a p && negb (after_of a p && isspace c).
Proof.
  revert a; induction p as [|d p IH]; intros a; simpl.
  - now rewrite andb_true_r.
  - now rewrite IH, andb_assoc.
Qed.

Lemma after_of_snoc (a : bool) (p : str) (c : char) :
  after_of a (p ++ [c]) = is_terminal c.
Proof. revert a; induction p as [|d p IH]; intros a; simpl; auto. Qed.

Lemma after_of_ends (p : str) : after_of false p = ends_terminal p.
Proof.
  destruct (rev p) as [|c r] eqn:E.
  - apply (f_equal (@rev char)) in E. rewrite rev_involutive in E. now subst.
  - apply (f_equal (@rev char)) in E. rewrite rev_involutive in E. subst p.
    simpl rev. rewrite after_of_snoc. unfold ends_terminal.
    now rewrite rev_app_distr, rev_involutive.
Qed.

Lemma no_trailing_space_cons (c : char) (s : str) :
  s <> [] -> no_trailing_space (c :: s) = no_trailing_space s.
Proof.
  intros Hs. unfold no_trailing_space. simpl rev.
  destruct (rev s) as [|d r] eqn:E; [|reflexivity].
  apply (f_equal (@rev char)) in E. rewrite rev_involutive in E. contradiction.
Qed.

Lemma no_trailing_space_app (p s : str) :
  s <> [] -> no_trailing_space (p ++ s) = no_trailing_space s.
Proof.
  intros Hs. induction p as [|c p IH]; [reflexivity|]. simpl app.
  rewrite no_trailing_space_cons; [exact IH|]. now destruct p.
Qed.

Lemma no_trailing_space_last (p : str) (c : char) :
  no_trailing_space (p ++ [c]) = negb (isspace c).
Proof. unfold no_trailing_space. now rewrite rev_app_distr. Qed.

Lemma starts_clean_app (p s : str) :
  p <> [] -> starts_clean (p ++ s) = starts_clean p.
Proof. now destruct p. Qed.

Lemma ends_terminal_no_trailing_space (p : str) :
  ends_terminal p = true -> no_trailing_space p = true.
Proof.
  unfold ends_terminal, no_trailing_space. destruct (rev p) as [|c r]; [easy|].
  intros H. destruct (isspace c) eqn:E; [|reflexivity].
  apply space_not_terminal in E. congruence.
Qed.

Lemma removelast_cons {B : Type} (x : B) (l : list B) :
  l <> [] -> removelast (x :: l) = x :: removelast l.
Proof. now destruct l. Qed.

Lemma re_split_scan_nonempty (in_sep after_terminal : bool) (cur s : str) :
  re_split_scan in_sep after_terminal cur s <> [].
Proof.
  pose proof (re_split_scan_length in_sep after_terminal cur s) as H.
  destruct (re_split_scan in_sep after_terminal cur s); [simpl in H; lia|easy].
Qed.

(** The pieces of a scan that starts at a character that is not whitespace
    and ends at one: each is a sentence without surrounding whitespace and
    without a place to cut, and each but the last ends in one of [. ! ?]. *)
Lemma re_split_scan_shape (s : str) :
  forall (in_sep after_terminal : bool) (cur : str),
    (if in_sep then cur = [] /\ s <> []
     else quiet false (rev cur) = true /\
          after_terminal = after_of false (rev cur) /\
          starts_clean (rev cur ++ s) = true) ->
    no_trailing_space (rev cur ++ s) = true ->
    Forall sentence_shaped (re_split_scan in_sep after_terminal cur s) /\
    Forall (fun p => ends_terminal p = true)
      (removelast (re_split_scan in_sep after_terminal cur s)).
Proof.
  unfold sentence_shaped.
  induction s as [|c s IH]; intros in_sep after cur Hst Hnts.
  - destruct in_sep; [now destruct Hst|]. destruct Hst as (Hq & Ha & Hs).
    rewrite app_nil_r in *. simpl. split; [|constructor].
    repeat constructor; try assumption.
    rewrite quiet_false_has_break in Hq. now apply negb_true_iff in Hq.
  - assert (Hs' : isspace c = true -> s <> []).
    { intros Hc ->. change (rev cur ++ [c]) with (rev (c :: cur)) in Hnts.
      unfold no_trailing_space in Hnts. rewrite rev_involutive in Hnts.
      rewrite Hc in Hnts. discriminate. }
    assert (Hpush : rev (c :: cur) ++ s = rev cur ++ c :: s)
      by (simpl; now rewrite <- app_assoc).
    cbn [re_split_scan]. destruct (isspace c) eqn:Hc.
    + specialize (Hs' eq_refl).
      assert (Hrest : Forall
                (fun p => starts_clean p = true /\
                          no_trailing_space p = true /\ has_break p = false)
                (re_split_scan true false [] s) /\
              Forall (fun p => ends_terminal p = true)
                (removelast (re_split_scan true false [] s))).
      { apply IH; [now split|]. simpl.
        rewrite no_trailing_space_app in Hnts by discriminate.
        now rewrite no_trailing_space_cons in Hnts. }
      destruct in_sep; [exact Hrest|].
      destruct Hst as (Hq & Ha & Hs). destruct after.
      * assert (Hne : rev cur <> []) by (intros E; rewrite E in Ha; discriminate).
        rewrite starts_clean_app in Hs by assumption.
        rewrite removelast_cons by apply re_split_scan_nonempty.
        symmetry in Ha. rewrite after_of_ends in Ha.
        destruct Hrest as [H1 H2]. split; constructor; try assumption.
        repeat split; try assumption.
        -- now apply ends_terminal_no_trailing_space.
        -- rewrite quiet_false_has_break in Hq. now apply negb_true_iff in Hq.
      * apply IH; [|now rewrite Hpush].
        rewrite Hpush. simpl rev. rewrite quiet_snoc, after_of_snoc, Hq, <- Ha.
        rewrite (space_not_terminal c Hc). now repeat split.
    + apply IH; [|now rewrite Hpush].
      simpl rev. rewrite after_of_snoc.
      destruct in_sep.
      * destruct Hst as [-> _]. simpl. rewrite Hc. simpl. now repeat split.
      * destruct Hst as (Hq & Ha & Hs).
        rewrite quiet_snoc, Hq, Hc, andb_false_r.
        change (rev cur ++ [c]) with (rev (c :: cur)). rewrite Hpush.
        now repeat split.
Qed.

Lemma lstrip_split (s : str) : exists ws, s = ws ++ lstrip s.
Proof.
  induction s as [|c s [ws IH]]; [now exists []|]. simpl.
  destruct (isspace c); [|now exists []].
  exists (c :: ws). simpl. now rewrite <- IH.
Qed.

Lemma lstrip_clean (s : str) : lstrip s = [] \/ starts_clean (lstrip s) = true.
Proof.
  induction s as [|c s IH]; [now left|]. simpl.
  destruct (isspace c) eqn:E; [exact IH|]. right. simpl. now rewrite E.
Qed.

Lemma strip_clean (s : str) :
  strip s = [] \/
  (starts_clean (strip s) = true /\ no_trailing_space (strip s) = true).
Proof.
  unfold strip, rstrip.
  destruct (lstrip (rev (lstrip s))) as [|c u] eqn:Eu; [now left|]. right.
  split.
  - destruct (lstrip_split (rev (lstrip s))) as [ws E]. rewrite Eu in E.
    apply (f_equal (@rev char)) in E.
    rewrite rev_involutive, rev_app_distr in E.
    destruct (lstrip_clean s) as [H|H].
    + rewrite H in E. destruct (rev (c :: u)) eqn:E'; [|discriminate E].
      apply (f_equal (@length char)) in E'. rewrite length_rev in E'.
      discriminate E'.
    + rewrite E, starts_clean_app in H; [exact H|].
      intros E'. apply (f_equal (@length char)) in E'.
      rewrite length_rev in E'. discriminate E'.
  - unfold no_trailing_space. rewrite rev_involutive.
    destruct (lstrip_clean (rev (lstrip s))) as [H|H]; rewrite Eu in H;
      [discriminate H|exact H].
Qed.

Lemma strip_fixed (s : str) :
  starts_clean s = true -> no_trailing_space s = true -> strip s = s.
Proof.
  intros Hs Hn. unfold strip, rstrip.
  assert (E : lstrip s = s).
  { destruct s as [|c s]; [reflexivity|]. simpl in *.
    now destruct (isspace c). }
  rewrite E. unfold no_trailing_space in Hn.
  destruct (rev s) as [|c r] eqn:Er.
  - apply (f_equal (@rev char)) in Er. rewrite rev_involutive in Er.
    now subst.
  - simpl. destruct (isspace c); [discriminate Hn|].
    now rewrite <- Er, rev_involutive.
Qed.

(** The pieces that [re.split] cuts a string without surrounding whitespace
    into. *)
Lemma re_split_sentences_shape (s : str) :
  starts_clean s = true -> no_trailing_space s = true ->
  Forall sentence_shaped (re_split_sentences s) /\
  Forall (fun p => ends_terminal p = true) (removelast (re_split_sentences s)).
Proof.
  intros Hs Hn.
  apply (re_split_scan_shape s false false []); simpl; auto.
Qed.

(** Reading on over a stretch without a place to cut. *)
Lemma re_split_scan_quiet (p : str) :
  forall (a : bool) (cur s : str),
    quiet a p = true ->
    re_split_scan false a cur (p ++ s) =
    re_split_scan false (after_of a p) (rev p ++ cur) s.
Proof.
  induction p as [|c p IH]; intros a cur s Hq; [reflexivity|].
  cbn [quiet] in Hq. apply andb_true_iff in Hq as [Hc Hq].
  simpl app. cbn [re_split_scan after_of].
  simpl rev. rewrite <- app_assoc. simpl app.
  destruct (isspace c) eqn:E.
  - destruct a; [discriminate Hc|].
    rewrite (space_not_terminal c E) in *. now apply IH.
  - now apply IH.
Qed.

Lemma join_cons_cons (sep p q : str) (r : list str) :
  join sep (p :: q :: r) = p ++ sep ++ join sep (q :: r).
Proof. reflexivity. Qed.

Lemma join_starts_clean (sep : str) (ss : list str) :
  match ss with
  | [] => True
  | p :: _ => starts_clean p = true -> starts_clean (join sep ss) = true
  end.
Proof.
  destruct ss as [|p [|q r]]; [exact I|simpl; auto|].
  rewrite join_cons_cons. intros H. rewrite starts_clean_app; [exact H|].
  now destruct p.
Qed.

(** [re.split] cuts the join of sentence-shaped pieces, all but the last
    ending in one of [. ! ?], at the joints. *)
Lemma re_split_of_join (ss : list str) :
  ss <> [] ->
  Forall sentence_shaped ss ->
  Forall (fun s => ends_terminal s = true) (removelast ss) ->
  re_split_sentences (join (lit " ") ss) = ss.
Proof.
  unfold re_split_sentences.
  induction ss as [|p ss IH]; [congruence|]. intros _ Hf He.
  apply Forall_cons_iff in Hf as [(Hs & Hn & Hb) Hf].
  assert (Hq : quiet false p = true)
    by (rewrite quiet_false_has_break, Hb; reflexivity).
  destruct ss as [|q r].
  - simpl join. rewrite <- (app_nil_r p) at 1.
    rewrite re_split_scan_quiet by assumption. simpl.
    now rewrite app_nil_r, rev_involutive.
  - rewrite removelast_cons in He by discriminate.
    apply Forall_cons_iff in He as [Hp He].
    rewrite join_cons_cons, re_split_scan_quiet by assumption.
    rewrite after_of_ends, Hp, app_nil_r.
    change (lit " " ++ join (lit " ") (q :: r))
      with (32%N :: join (lit " ") (q :: r)).
    cbn [re_split_scan]. change (isspace 32%N) with true. cbn iota.
    rewrite rev_involutive. f_equal.
    specialize (IH ltac:(discriminate) Hf He).
    pose proof (join_starts_clean (lit " ") (q :: r)) as Hj. cbv beta iota in Hj.
    apply Forall_inv in Hf. destruct Hf as (Hsq & _). specialize (Hj Hsq).
    destruct (join (lit " ") (q :: r)) as [|c J]; [discriminate Hj|].
    simpl in Hj. cbn [re_split_scan] in *.
    destruct (isspace c); [discriminate Hj|]. exact IH.
Qed.

Lemma subseq_nil_l {B : Type} (l : list B) : subseq [] l.
Proof. induction l; now constructor. Qed.

Lemma subseq_removelast {B : Type} (l1 l2 : list B) :
  subseq l1 l2 -> subseq (removelast l1) (removelast l2).
Proof.
  induction 1 as [|x l1 l2 H IH|x l1 l2 H IH]; [constructor| |].
  - destruct l2 as [|y l2].
    + inversion H. constructor.
    + rewrite (removelast_cons x (y :: l2)) by discriminate.
      now constructor.
  - destruct l1 as [|z l1]; [apply subseq_nil_l|].
    destruct l2 as [|y l2]; [inversion H|].
    rewrite !removelast_cons by discriminate. now constructor.
Qed.

Lemma subseq_Forall {B : Type} (P : B -> Prop) (l1 l2 : list B) :
  subseq l1 l2 -> Forall P l2 -> Forall P l1.
Proof.
  intros Hs Hf. rewrite Forall_forall in *. intros x Hx.
  apply Hf. now apply (subseq_In _ _ _ Hs).
Qed.

Lemma sents_of_blank (text : str) : strip text = [] -> sents_of text = [[]].
Proof. unfold sents_of. now intros ->. Qed.

Lemma many_sentences_not_blank (text : str) :
  (2 <= length (sents_of text))%nat -> strip text <> [].
Proof. intros H E. rewrite (sents_of_blank text E) in H. simpl in H. lia. Qed.

(** The chosen sentences are sentence-shaped, and all but the last end in
    one of [. ! ?]. *)
Lemma chosen_shaped (text : str) (k : Z) :
  strip text <> [] ->
  Forall sentence_shaped (List.map snd (chosen_of text k)) /\
  Forall (fun s => ends_terminal s = true)
    (removelast (List.map snd (chosen_of text k))).
Proof.
  intros Hne. destruct (strip_clean text) as [H|[Hc Hn]]; [contradiction|].
  destruct (re_split_sentences_shape (strip text) Hc Hn) as [H1 H2].
  fold (sents_of text) in H1, H2.
  pose proof (chosen_of_subseq text k) as Hs. split.
  - now apply (subseq_Forall _ _ _ Hs).
  - now apply (subseq_Forall _ _ _ (subseq_removelast _ _ Hs)).
Qed.

Lemma join_shaped (ss : list str) :
  ss <> [] -> Forall sentence_shaped ss ->
  starts_clean (join (lit " ") ss) = true /\
  no_trailing_space (join (lit " ") ss) = true.
Proof.
  intros Hne Hf. split.
  - pose proof (join_starts_clean (lit " ") ss) as H.
    destruct ss as [|p r]; [congruence|]. apply H.
    apply Forall_inv in Hf. apply Hf.
  - induction ss as [|p ss IH]; [congruence|].
    apply Forall_cons_iff in Hf as [(_ & Hn & _) Hf].
    destruct ss as [|q r]; [exact Hn|].
    rewrite join_cons_cons, app_assoc, no_trailing_space_app.
    + apply IH; [discriminate|assumption].
    + specialize (IH ltac:(discriminate) Hf).
      intros E. pose proof (join_starts_clean (lit " ") (q :: r)) as H.
      cbv beta iota in H. rewrite E in H. apply Forall_inv in Hf.
      destruct Hf as [Hq _]. specialize (H Hq). discriminate H.
Qed.

Lemma top_of_nonempty (text : str) (k : Z) :
  1 <= k -> top_of text k <> [].
Proof.
  intros Hk. rewrite top_of_firstn by lia.
  pose proof (sents_of_length text) as Hn.
  intros E. apply (f_equal (@length str)) in E.
  rewrite length_firstn, length_map, ranked_of_length in E. simpl in E. lia.
Qed.

Lemma chosen_of_nonempty (text : str) (k : Z) :
  1 <= k -> chosen_of text k <> [].
Proof.
  intros Hk. pose proof (top_of_nonempty text k Hk) as Ht.
  destruct (top_of text k) as [|s t] eqn:E; [congruence|].
  assert (Hin : In s (top_of text k)) by (rewrite E; now left).
  pose proof (top_of_incl text k s Hin) as Hs.
  apply In_nth_error in Hs as [i Hi].
  assert (Hc : In (i, s) (chosen_of text k)) by now apply chosen_of_In.
  intros E'. now rewrite E' in Hc.
Qed.

Lemma starts_clean_nonempty (s : str) : starts_clean s = true -> s <> [].
Proof. now destruct s. Qed.

(** The sentences chosen for a summary, joined, are not the empty string and
    split into themselves. *)
Lemma chosen_join (text : str) (k : Z) :
  strip text <> [] -> 1 <= k ->
  join (lit " ") (List.map snd (chosen_of text k)) <> [] /\
  sents_of (join (lit " ") (List.map snd (chosen_of text k))) =
  List.map snd (chosen_of text k).
Proof.
  intros Hne Hk.
  destruct (chosen_shaped text k Hne) as [H1 H2].
  assert (Hc : List.map snd (chosen_of text k) <> []).
  { intros E. apply map_eq_nil in E. now apply (chosen_of_nonempty text k). }
  destruct (join_shaped _ Hc H1) as [Hs Hn]. split.
  - now apply starts_clean_nonempty.
  - unfold sents_of. rewrite strip_fixed by assumption.
    now apply re_split_of_join.
Qed.

Lemma quick_summarize_zero (text : str) :
  too_short text = false -> quick_summarize text 0 = [].
Proof.
  intros Hshort. pose proof (sents_of_length text) as Hn.
  rewrite quick_summarize_chosen by (assumption || lia).
  rewrite chosen_of_sentences.
  assert (Ht : top_of text 0 = []) by reflexivity. rewrite Ht. clear.
  induction (sents_of text) as [|s l IH]; [reflexivity|exact IH].
Qed.

(** X6: the sentences that quick_summarize cuts a document that is not blank
    into are not empty, neither begin nor end with whitespace and hold no
    place where the pattern cuts (one of [. ! ?] followed by whitespace);
    every sentence but the last ends in one of [. ! ?]. *)
Theorem sentences_shaped (text : str) :
  strip text <> [] ->
  Forall sentence_shaped (sents_of text) /\
  Forall (fun s => ends_terminal s = true) (removelast (sents_of text)).
Proof.
  intros Hne. unfold sents_of.
  destruct (strip_clean text) as [H|[Hs Hn]]; [contradiction|].
  now apply re_split_sentences_shape.
Qed.

Lemma sentences_shaped_witness :
  Forall sentence_shaped (sents_of sample_text) /\
  Forall (fun s => ends_terminal s = true) (removelast (sents_of sample_text)).
Proof.
  apply (sentences_shaped sample_text). vm_compute. discriminate.
Defined.

(** X7: joining sentence-shaped strings, all but the last ending in one of
    [. ! ?], with single spaces and cutting the result into sentences as
    quick_summarize does gives the strings back. *)
Theorem split_join (ss : list str) :
  ss <> [] ->
  Forall sentence_shaped ss ->
  Forall (fun s => ends_terminal s = true) (removelast ss) ->
  sents_of (join (lit " ") ss) = ss.
Proof.
  intros Hne Hf He. unfold sents_of.
  destruct (join_shaped ss Hne Hf) as [Hs Hn].
  rewrite strip_fixed by assumption. now apply re_split_of_join.
Qed.

Lemma split_join_witness :
  sents_of (join (lit " ") [lit "Is it so?"; lit "Yes, it is."; lit "Good"]) =
  [lit "Is it so?"; lit "Yes, it is."; lit "Good"].
Proof.
  apply (split_join [lit "Is it so?"; lit "Yes, it is."; lit "Good"]).
  - discriminate.
  - repeat constructor.
  - vm_compute. repeat constructor.
Defined.

(** X8: when quick_summarize builds a summary of at least one sentence,
    cutting that summary into sentences gives exactly the sentences it chose,
    in their order. *)
Theorem summary_splits_into_chosen (text : str) (max_sentences : Z) :
  too_short text = false ->
  1 <= max_sentences < Z.of_nat (length (sents_of text)) ->
  sents_of (quick_summarize text max_sentences) =
  List.map snd (chosen_of text max_sentences).
Proof.
  intros Hshort Hk.
  assert (Hne : strip text <> []) by (apply many_sentences_not_blank; lia).
  rewrite quick_summarize_chosen by (assumption || lia).
  apply chosen_join; [assumption|lia].
Qed.

Lemma summary_splits_into_chosen_witness :
  sents_of (quick_summarize sample_text 2) =
  List.map snd (chosen_of sample_text 2).
Proof.
  apply (summary_splits_into_chosen sample_text 2).
  - vm_compute. reflexivity.
  - vm_compute. split; [discriminate|reflexivity].
Defined.

(** X9: for a document that is not empty and [max_sentences] of at least 1,
    quick_summarize never returns the empty string. *)
Theorem summary_nonempty (text : str) (max_sentences : Z) :
  text <> [] -> 1 <= max_sentences ->
  quick_summarize text max_sentences <> [].
Proof.
  intros Ht Hk. unfold quick_summarize.
  destruct (too_short text); [assumption|].
  destruct (_ <=? _) eqn:E; [assumption|]. apply Z.leb_gt in E.
  apply chosen_join; [|assumption].
  apply many_sentences_not_blank. lia.
Qed.

Lemma summary_nonempty_witness :
  sample_text <> [] /\ quick_summarize sample_text 2 <> [].
Proof.
  assert (H : sample_text <> []) by (vm_compute; discriminate).
  split; [exact H|]. apply (summary_nonempty sample_text 2 H). lia.
Defined.

(** X10: when the sentences of the document are pairwise different and
    [max_sentences] is not negative, summarising a summary with the same
    [max_sentences] changes nothing. *)
Theorem summarize_idempotent_distinct (text : str) (max_sentences : Z) :
  NoDup (sents_of text) -> 0 <= max_sentences ->
  quick_summarize (quick_summarize text max_sentences) max_sentences =
  quick_summarize text max_sentences.
Proof.
  intros Hnd Hk.
  destruct (too_short text) eqn:Hshort.
  { now rewrite !(quick_summarize_short text) by assumption. }
  destruct (Z_le_gt_dec (Z.of_nat (length (sents_of text))) max_sentences)
    as [Hle|Hgt].
  { now rewrite !(quick_summarize_few text) by assumption. }
  destruct (Z.eq_dec max_sentences 0) as [->|Hk0].
  { now rewrite (quick_summarize_zero text Hshort). }
  assert (Hne : strip text <> []) by (apply many_sentences_not_blank; lia).
  apply quick_summarize_few.
  rewrite quick_summarize_chosen by (assumption || lia).
  destruct (chosen_join text max_sentences Hne) as [_ ->]; [lia|].
  rewrite length_map.
  pose proof (chosen_of_bounded_distinct text max_sentences Hnd Hk). lia.
Qed.

Lemma summarize_idempotent_distinct_witness :
  quick_summarize (quick_summarize sample_text 2) 2 =
  quick_summarize sample_text 2.
Proof.
  apply (summarize_idempotent_distinct sample_text 2).
  - exact sample_text_distinct.
  - lia.
Defined.

(** ** The summary box *)

(** X11: for a transcription that is not empty the summary box shows the
    summary of at most three sentences, never the placeholder. *)
Theorem shown_summary_is_summary (txt : str) :
  txt <> [] -> shown_summary txt = quick_summarize txt 3.
Proof.
  intros Ht. unfold shown_summary.
  assert (H : quick_summarize txt 3 <> []).
  { unfold quick_summarize. destruct (too_short txt); [assumption|].
    destruct (_ <=? _) eqn:E; [assumption|]. apply Z.leb_gt in E.
    apply chosen_join; [|lia]. apply many_sentences_not_blank. lia. }
  now destruct (quick_summarize txt 3).
Qed.

Lemma shown_summary_is_summary_witness :
  sample_text <> [] /\
  shown_summary sample_text = quick_summarize sample_text 3.
Proof.
  assert (H : sample_text <> []) by (vm_compute; discriminate).
  split; [exact H|]. apply (shown_summary_is_summary sample_text H).
Defined.

(** ** Further properties of top_words *)

Lemma table_keys (words : list str) :
  List.map fst (List.map (fun w => (w, count_of w words)) (first_seen words))
  = first_seen words.
Proof. rewrite map_map. simpl. apply map_id. Qed.

(** X12: top_words returns [n] pairs, or as many as there are different
    tokens that are no stopwords when these are fewer (none for a negative
    [n]). *)
Theorem top_words_length (text : str) (n : Z) :
  length (top_words text n) =
  Nat.min (Z.to_nat n) (length (first_seen (content_words text))).
Proof.
  rewrite top_words_table, length_firstn. unfold sorted_by_key.
  now rewrite sort_length, length_map.
Qed.

(** X13: no token appears twice in the result of top_words, and each is
    paired with the number of its occurrences among the tokens that are no
    stopwords, which is at least 1. *)
Theorem top_words_distinct_counted (text : str) (n : Z) :
  NoDup (List.map fst (top_words text n)) /\
  Forall (fun e => snd e = count_of (fst e) (content_words text) /\
                   1 <= snd e /\ In (fst e) (content_words text))
    (top_words text n).
Proof.
  split.
  - rewrite top_words_table, map_firstn. apply NoDup_firstn.
    unfold sorted_by_key.
    eapply Permutation_NoDup;
      [apply Permutation_map, sort_perm|].
    rewrite table_keys. apply first_seen_NoDup.
  - rewrite Forall_forall. intros [w c] H.
    apply top_words_In in H as [Hin ->]. simpl.
    repeat split; [now apply count_of_pos|assumption].
Qed.

Lemma runs_shape (p : char -> bool) (s : str) :
  forall cur,
    Forall (fun c => p c = true) cur ->
    Forall (fun w => w <> [] /\ Forall (fun c => p c = true) w)
      (runs p cur s).
Proof.
  assert (Hflush : forall cur, Forall (fun c => p c = true) cur ->
            Forall (fun w => w <> [] /\ Forall (fun c => p c = true) w)
              (flush cur)).
  { intros [|c cur] H; constructor; [|constructor]. split.
    - intros E. apply (f_equal (@length char)) in E.
      rewrite length_rev in E. discriminate E.
    - now apply Forall_rev. }
  induction s as [|c s IH]; intros cur Hcur; simpl; [now apply Hflush|].
  destruct (p c) eqn:E.
  - apply IH. now constructor.
  - apply Forall_app. split; [now apply Hflush|]. apply IH. constructor.
Qed.

Lemma lower_char_word (c : char) :
  is_word_char c = true -> is_lower_word_char (lower_char c) = true.
Proof.
  unfold is_word_char, is_lower_word_char, lower_char. intros H.
  destruct ((65 <=? c)%N && (c <=? 90)%N) eqn:E.
  - apply andb_true_iff in E as [E1 E2].
    apply N.leb_le in E1, E2. apply orb_true_iff. left.
    apply andb_true_iff. split; apply N.leb_le; lia.
  - simpl in H. exact H.
Qed.

(** X14: every token that top_words returns is a non-empty string of
    lower-case ASCII letters and apostrophes. *)
Theorem top_words_tokens_lower (text : str) (n : Z) :
  Forall (fun e => fst e <> [] /\
                   Forall (fun c => is_lower_word_char c = true) (fst e))
    (top_words text n).
Proof.
  rewrite Forall_forall. intros [w c] H. simpl.
  apply top_words_In in H as [H _]. apply content_words_In in H as [H _].
  unfold lowered_words in H. apply in_map_iff in H as [v [<- Hv]].
  pose proof (runs_shape is_word_char text [] (Forall_nil _)) as Hr.
  rewrite Forall_forall in Hr. destruct (Hr v Hv) as [Hne Hf]. split.
  - unfold lower. intros E. apply map_eq_nil in E. contradiction.
  - unfold lower. rewrite Forall_map.
    eapply Forall_impl; [|exact Hf]. apply lower_char_word.
Qed.

(** X15: no token that top_words leaves out occurs more often than a
    token it returns. *)
Theorem top_words_outrank_rest (text : str) (n : Z) (w v : str) (c : Z) :
  In (w, c) (top_words text n) ->
  In v (content_words text) ->
  ~ In v (List.map fst (top_words text n)) ->
  count_of v (content_words text) <= c.
Proof.
  intros Hw Hv Hnv. rewrite top_words_table in Hw, Hnv.
  set (table := List.map (fun w => (w, count_of w (content_words text)))
                  (first_seen (content_words text))) in *.
  pose proof (sort_ge_sorted snd table) as Hs.
  assert (Hin : In (v, count_of v (content_words text))
                  (sort (key_ge snd) table)).
  { apply sort_In. apply in_map_iff. exists v.
    split; [reflexivity|now apply first_seen_In]. }
  rewrite <- (firstn_skipn (Z.to_nat n) (sort (key_ge snd) table)) in Hin, Hs.
  apply in_app_or in Hin as [Hin|Hin].
  - exfalso. apply Hnv. apply in_map_iff.
    now exists (v, count_of v (content_words text)).
  - apply (StronglySorted_app_inv _ _ _ _ _ Hs Hw Hin).
Qed.

Lemma top_words_outrank_rest_witness :
  count_of (lit "door") (content_words sample_text) <= 3.
Proof.
  apply (top_words_outrank_rest sample_text 1 (lit "cat") (lit "door") 3).
  - vm_compute. left. reflexivity.
  - vm_compute. right. right. right. right. left. reflexivity.
  - vm_compute. intros [H|[]]. discriminate H.
Defined.

(** X16: asking top_words for more pairs only adds pairs at the end: the
    result for [n] is an initial part of the result for any larger [m]. *)
Theorem top_words_prefix (text : str) (n m : Z) :
  n <= m -> prefix_of (top_words text n) (top_words text m).
Proof.
  intros H. rewrite !top_words_table.
  exists (skipn (Z.to_nat n)
            (firstn (Z.to_nat m)
               (sorted_by_key snd true
                  (List.map (fun w => (w, count_of w (content_words text)))
                     (first_seen (content_words text)))))).
  rewrite <- (firstn_skipn (Z.to_nat n) (firstn (Z.to_nat m) _)) at 1.
  f_equal. rewrite firstn_firstn. f_equal. lia.
Qed.

Lemma top_words_prefix_witness :
  prefix_of (top_words sample_text 1) (top_words sample_text 3).
Proof.
  apply (top_words_prefix sample_text 1 3). lia.
Defined.

Lemma sum_app (l l' : list Z) : sum (l ++ l') = sum l + sum l'.
Proof.
  induction l as [|x l IH]; [reflexivity|]. simpl app.
  rewrite !sum_cons, IH. lia.
Qed.

Lemma sum_perm (l l' : list Z) : Permutation l l' -> sum l = sum l'.
Proof.
  induction 1; rewrite ?sum_cons; lia.
Qed.

Lemma sum_map_add {B : Type} (f g : B -> Z) (l : list B) :
  sum (List.map (fun x => f x + g x) l) =
  sum (List.map f l) + sum (List.map g l).
Proof.
  induction l as [|x l IH]; [reflexivity|]. cbn [List.map].
  rewrite !sum_cons, IH. lia.
Qed.

Lemma sum_indicator (x : str) (keys : list str) :
  NoDup keys ->
  sum (List.map (fun v => if str_eqb v x then 1 else 0) keys) =
  if contains keys x then 1 else 0.
Proof.
  unfold contains. induction 1 as [|k keys Hk Hnd IH]; [reflexivity|].
  cbn [List.map existsb]. rewrite sum_cons, IH, (str_eqb_sym x k).
  destruct (str_eqb k x) eqn:E; [|reflexivity]. apply str_eqb_eq in E. subst k.
  destruct (existsb (str_eqb x) keys) eqn:E'; [|reflexivity].
  exfalso. apply Hk. now apply contains_In.
Qed.

(** The counts of the words of [keys], which list every word of [l] once,
    add up to the length of [l]. *)
Lemma count_of_total (keys l : list str) :
  NoDup keys -> (forall x, In x l -> In x keys) ->
  sum (List.map (fun v => count_of v l) keys) = Z.of_nat (length l).
Proof.
  intros Hnd. induction l as [|x l IH]; intros Hin.
  - unfold count_of. simpl. clear. induction keys as [|k keys IH];
      [reflexivity|]. cbn [List.map]. rewrite sum_cons, IH. reflexivity.
  - rewrite (map_ext _ (fun v => count_of v l +
                                 (if str_eqb v x then 1 else 0))).
    + rewrite sum_map_add, IH by (intros y Hy; apply Hin; now right).
      rewrite sum_indicator by assumption.
      assert (Hx : contains keys x = true)
        by (apply contains_In, Hin; now left).
      rewrite Hx. cbn [length]. lia.
    + intros v. unfold count_of. cbn [filter].
      destruct (str_eqb v x); cbn [length]; lia.
Qed.

(** X17: the counts that top_words returns never add up to more than the
    number of tokens that are no stopwords, and to exactly that number once
    [n] is at least the number of different such tokens. *)
Theorem top_words_counts_total (text : str) (n : Z) :
  sum (List.map snd (top_words text n))
  <= Z.of_nat (length (content_words text)) /\
  (Z.of_nat (length (first_seen (content_words text))) <= n ->
   sum (List.map snd (top_words text n))
   = Z.of_nat (length (content_words text))).
Proof.
  set (words := content_words text).
  set (table := List.map (fun w => (w, count_of w words)) (first_seen words)).
  assert (Htot : sum (List.map snd (sorted_by_key snd true table))
                 = Z.of_nat (length words)).
  { unfold sorted_by_key.
    rewrite <- (sum_perm _ _ (Permutation_map snd (sort_perm _ table))).
    unfold table. rewrite map_map. cbn [snd].
    apply count_of_total; [apply first_seen_NoDup|].
    intros x Hx. now apply first_seen_In. }
  rewrite top_words_table. fold words table. split.
  - rewrite <- Htot.
    rewrite <- (firstn_skipn (Z.to_nat n) (sorted_by_key snd true table)) at 2.
    rewrite map_app, sum_app.
    assert (0 <= sum (List.map snd
                   (skipn (Z.to_nat n) (sorted_by_key snd true table)))).
    { apply sum_nonneg. rewrite Forall_map, Forall_forall. intros [w c] H.
      assert (H' : In (w, c) (sorted_by_key snd true table)).
      { rewrite <- (firstn_skipn (Z.to_nat n)). apply in_or_app. now right. }
      clear H. rename H' into H. unfold sorted_by_key in H. apply sort_In in H.
      unfold table in H. apply in_map_iff in H as [v [E _]].
      injection E as _ <-. apply count_of_nonneg. }
    lia.
  - intros Hn. rewrite firstn_all2; [exact Htot|].
    unfold sorted_by_key, table. rewrite sort_length, length_map. lia.
Qed.

(** Case *)

Lemma runs_map (p : char -> bool) (f : char -> char) (s : str) :
  (forall c, p (f c) = p c) ->
  forall cur,
    runs p (List.map f cur) (List.map f s) =
    List.map (List.map f) (runs p cur s).
Proof.
  intros Hp.
  assert (Hflush : forall cur,
            flush (List.map f cur) = List.map (List.map f) (flush cur)).
  { intros [|c cur]; [reflexivity|].
    change (flush (List.map f (c :: cur)))
      with [rev (List.map f (c :: cur))].
    now rewrite <- map_rev. }
  induction s as [|c s IH]; intros cur; cbn [List.map runs]; [apply Hflush|].
  rewrite Hp. destruct (p c).
  - apply (IH (c :: cur)).
  - rewrite map_app, Hflush. f_equal. apply (IH []).
Qed.

Lemma lower_char_keeps_class (c : char) :
  is_word_char (lower_char c) = is_word_char c.
Proof.
  unfold is_word_char, lower_char.
  destruct ((65 <=? c)%N && (c <=? 90)%N) eqn:E; [|now rewrite E].
  apply andb_true_iff in E as [E1 E2]. apply N.leb_le in E1, E2.
  assert (H1 : ((97 <=? c + 32) && (c + 32 <=? 122))%N = true)
    by (apply andb_true_iff; split; apply N.leb_le; lia).
  rewrite H1. now rewrite orb_true_r.
Qed.

Lemma lower_char_idem (c : char) : lower_char (lower_char c) = lower_char c.
Proof.
  unfold lower_char.
  destruct ((65 <=? c)%N && (c <=? 90)%N) eqn:E; [|now rewrite E].
  apply andb_true_iff in E as [E1 E2]. apply N.leb_le in E1, E2.
  assert (H : ((65 <=? c + 32) && (c + 32 <=? 90))%N = false).
  { apply andb_false_iff. right. apply N.leb_gt. lia. }
  now rewrite H.
Qed.

Lemma lowered_words_lower (text : str) :
  lowered_words (List.map lower_char text) = lowered_words text.
Proof.
  unfold lowered_words, findall_words.
  pose proof (runs_map is_word_char lower_char text
                lower_char_keeps_class []) as H.
  cbn [List.map] in H. rewrite H, map_map. apply map_ext. intros w. unfold lower.
  rewrite map_map. apply map_ext. apply lower_char_idem.
Qed.

(** X18: two documents that differ only in the case of ASCII letters have
    the same top words. *)
Theorem top_words_ignore_case (text text' : str) (n : Z) :
  List.map lower_char text = List.map lower_char text' ->
  top_words text n = top_words text' n.
Proof.
  intros H. unfold top_words, content_words.
  now rewrite <- (lowered_words_lower text), H, lowered_words_lower.
Qed.

Lemma top_words_ignore_case_witness :
  top_words (lit "The Cat saw the cat") 5 =
  top_words (lit "THE CAT SAW THE CAT") 5.
Proof.
  apply (top_words_ignore_case (lit "The Cat saw the cat")
           (lit "THE CAT SAW THE CAT") 5).
  vm_compute. reflexivity.
Defined.

(** ** The top-words chart *)

(** X19: for [n] of at least 1, top_words returns nothing (the page then
    shows its caption instead of the chart) exactly when the document holds
    no token that is no stopword. *)
Theorem top_words_empty_iff (text : str) (n : Z) :
  1 <= n -> (top_words text n = [] <-> content_words text = []).
Proof.
  intros Hn.
  assert (Hl : length (top_words text n) =
               Nat.min (Z.to_nat n)
                 (length (first_seen (content_words text)))).
  { rewrite top_words_table, length_firstn. unfold sorted_by_key.
    now rewrite sort_length, length_map. }
  split.
  - intros E. rewrite E in Hl. cbn [length] in Hl.
    destruct (content_words text) as [|w ws]; [reflexivity|].
    exfalso. cbn [first_seen length] in Hl. lia.
  - intros E. rewrite E in Hl. cbn [first_seen length] in Hl.
    rewrite Nat.min_0_r in Hl. now apply length_zero_iff_nil.
Qed.

Lemma top_words_empty_iff_witness :
  top_words (lit "It is on the of.") 10 = [] <->
  content_words (lit "It is on the of.") = [].
Proof.
  apply (top_words_empty_iff (lit "It is on the of.") 10). lia.
Defined.

(** ** The History list *)

(** X20: the History list shows the five items appended last, the newest
    first (all of them while there are at most five); appending an item puts
    it at the front of the list and keeps the first four of the items shown
    before. *)
Theorem listed_history_recent (history : list history_item)
  (item : history_item) :
  listed_history history = rev (skipn (length history - 5) history) /\
  length (listed_history history) = Nat.min 5 (length history) /\
  listed_history (history_append history item) =
  item :: firstn 4 (listed_history history).
Proof.
  assert (E : forall h, listed_history h = firstn 5 (rev h))
    by reflexivity.
  rewrite !E. unfold history_append. repeat split.
  - apply firstn_rev.
  - now rewrite length_firstn, length_rev.
  - rewrite rev_app_distr. cbn [rev app].
    change 5%nat with (S 4) at 1. rewrite firstn_cons. f_equal.
    now rewrite firstn_firstn.
Qed.

(** ** The paragraphs of the DOCX export *)






(** ** clean_quotes *)

Lemma lstrip_chars_split (p : char -> bool) (s : str) :
  exists pre, s = pre ++ lstrip_chars p s.
Proof.
  induction s as [|c s [pre IH]]; [now exists []|]. simpl.
  destruct (p c); [|now exists []].
  exists (c :: pre). simpl. now rewrite <- IH.
Qed.

Lemma lstrip_chars_head (p : char -> bool) (s : str) :
  match lstrip_chars p s with
  | [] => True
  | c :: _ => p c = false
  end.
Proof.
  induction s as [|c s IH]; [exact I|]. simpl.
  destruct (p c) eqn:E; [exact IH|exact E].
Qed.

Lemma lstrip_chars_all (p : char -> bool) (a s : str) :
  Forall (fun c => p c = true) a ->
  lstrip_chars p (a ++ s) = lstrip_chars p s.
Proof.
  induction 1 as [|c a Hc _ IH]; [reflexivity|]. simpl. now rewrite Hc.
Qed.

Lemma lstrip_chars_keep (p : char -> bool) (s : str) :
  match s with
  | [] => True
  | c :: _ => p c = false
  end ->
  lstrip_chars p s = s.
Proof. destruct s as [|c s]; [reflexivity|]. simpl. now intros ->. Qed.

Lemma strip_chars_occurs (p : char -> bool) (s : str) :
  occurs_in (strip_chars p s) s.
Proof.
  unfold strip_chars.
  destruct (lstrip_chars_split p s) as [pre E].
  destruct (lstrip_chars_split p (rev (lstrip_chars p s))) as [post E'].
  apply (f_equal (@rev char)) in E'.
  rewrite rev_involutive, rev_app_distr in E'.
  exists pre, (rev post). now rewrite <- E'.
Qed.

Lemma strip_chars_bare (p : char -> bool) (s : str) :
  bare p (strip_chars p s) = true.
Proof.
  unfold strip_chars, bare. rewrite rev_involutive.
  pose proof (lstrip_chars_head p (rev (lstrip_chars p s))) as Hu.
  destruct (lstrip_chars p (rev (lstrip_chars p s))) as [|c u] eqn:Eu;
    [reflexivity|].
  rewrite Hu, andb_true_r.
  destruct (lstrip_chars_split p (rev (lstrip_chars p s))) as [ws E].
  rewrite Eu in E. apply (f_equal (@rev char)) in E.
  rewrite rev_involutive, rev_app_distr in E.
  pose proof (lstrip_chars_head p s) as Hh. rewrite E in Hh.
  destruct (rev (c :: u)) as [|d r] eqn:Er.
  - apply (f_equal (@length char)) in Er. rewrite length_rev in Er.
    discriminate Er.
  - simpl in Hh. now rewrite Hh.
Qed.

Lemma strip_chars_wrapped (p : char -> bool) (a m b : str) :
  Forall (fun c => p c = true) a ->
  Forall (fun c => p c = true) b ->
  bare p m = true ->
  strip_chars p (a ++ m ++ b) = m.
Proof.
  intros Ha Hb Hm. unfold strip_chars, bare in *.
  apply andb_true_iff in Hm as [Hm1 Hm2].
  rewrite lstrip_chars_all by assumption.
  destruct m as [|c m].
  - simpl. rewrite <- (app_nil_r b) at 1.
    rewrite lstrip_chars_all by assumption. reflexivity.
  - rewrite (lstrip_chars_keep p ((c :: m) ++ b))
      by (simpl; now apply negb_true_iff).
    rewrite rev_app_distr, lstrip_chars_all by now apply Forall_rev.
    rewrite lstrip_chars_keep; [apply rev_involutive|].
    destruct (rev (c :: m)); [exact I|now apply negb_true_iff].
Qed.

Lemma strip_chars_keep (p : char -> bool) (m : str) :
  bare p m = true -> strip_chars p m = m.
Proof.
  intros Hm.
  pose proof (strip_chars_wrapped p [] m [] (Forall_nil _) (Forall_nil _) Hm)
    as H.
  simpl in H. now rewrite app_nil_r in H.
Qed.

Lemma lstrip_is_lstrip_chars (s : str) : lstrip s = lstrip_chars isspace s.
Proof. induction s as [|c s IH]; simpl; [reflexivity|now rewrite IH]. Qed.

Lemma strip_is_strip_chars (s : str) : strip s = strip_chars isspace s.
Proof.
  unfold strip, rstrip, strip_chars. now rewrite !lstrip_is_lstrip_chars.
Qed.

(** X22: the result of clean_quotes is a contiguous part of its argument
    and neither begins nor ends with an apostrophe. *)
Theorem clean_quotes_part (path_or_name : str) :
  occurs_in (clean_quotes path_or_name) path_or_name /\
  bare (fun c => char_eqb c 39%N) (clean_quotes path_or_name) = true.
Proof.
  unfold clean_quotes. split; [|apply strip_chars_bare].
  eapply occurs_in_trans; [apply strip_chars_occurs|].
  eapply occurs_in_trans; [apply strip_chars_occurs|].
  rewrite strip_is_strip_chars. apply strip_chars_occurs.
Qed.

(** X23: a name between two double quotes, or between two apostrophes, with
    any whitespace around them, comes out as the name itself, provided the
    name neither begins nor ends with a double quote or an apostrophe. *)
Theorem clean_quotes_unwraps (ws1 ws2 name : str) (q : char) :
  q = 34%N \/ q = 39%N ->
  Forall (fun c => isspace c = true) ws1 ->
  Forall (fun c => isspace c = true) ws2 ->
  bare (fun c => char_eqb c 34%N) name = true ->
  bare (fun c => char_eqb c 39%N) name = true ->
  clean_quotes (ws1 ++ [q] ++ name ++ [q] ++ ws2) = name.
Proof.
  intros Hq H1 H2 Hd Ha. unfold clean_quotes.
  rewrite strip_is_strip_chars.
  replace (ws1 ++ [q] ++ name ++ [q] ++ ws2)
    with (ws1 ++ ([q] ++ name ++ [q]) ++ ws2)
    by (now rewrite <- !app_assoc).
  rewrite (strip_chars_wrapped isspace) by
    (try assumption; unfold bare; simpl rev; rewrite rev_app_distr; simpl;
     destruct Hq; subst q; reflexivity).
  destruct Hq; subst q.
  - rewrite (strip_chars_wrapped _ [34%N] name [34%N]) by
      (try assumption; repeat constructor).
    now apply strip_chars_keep.
  - rewrite (strip_chars_keep _ ([39%N] ++ name ++ [39%N])) by
      (unfold bare; simpl rev; rewrite rev_app_distr; reflexivity).
    apply (strip_chars_wrapped _ [39%N] name [39%N]);
      try assumption; repeat constructor.
Qed.

Lemma clean_quotes_unwraps_witness :
  clean_quotes
    (lit " " ++ [34%N] ++ lit "my file.wav" ++ [34%N] ++ [10%N; 32%N]) =
  lit "my file.wav".
Proof.
  apply (clean_quotes_unwraps (lit " ") [10%N; 32%N] (lit "my file.wav")
           34%N).
  - left. reflexivity.
  - repeat constructor.
  - repeat constructor.
  - vm_compute. reflexivity.
  - vm_compute. reflexivity.
Defined.

(** ** The bytes of the TXT export *)

Ltac n_div_mod := zify; Z.to_euclidean_division_equations; lia.

Ltac n_cases :=
  repeat match goal with
    | H : (_ <? _)%N = true |- _ => apply N.ltb_lt in H
    | H : (_ <? _)%N = false |- _ => apply N.ltb_ge in H
    | H : (_ <=? _)%N = true |- _ => apply N.leb_le in H
    | H : (_ <=? _)%N = false |- _ => apply N.leb_gt in H
    | H : (_ && _)%bool = true |- _ => apply andb_true_iff in H as [? ?]
    | H : (_ && _)%bool = false |- _ => apply andb_false_iff in H
    end.

(** One code point: its bytes exist when it is a scalar value; the first
    byte tells how many there are and together they give the code point
    back. *)
Lemma utf8_char_some (c : char) (b : bytes) :
  utf8_char c = Some b ->
  is_scalar c = true /\
  length b = utf8_width (hd 0%N b) /\
  utf8_value b = c /\
  Forall (fun x => (x < 256)%N) b /\
  (1 <= length b <= 4)%nat.
Proof.
  unfold utf8_char, is_scalar, utf8_width.
  destruct (c <? 128)%N eqn:E1.
  { intros H. replace b with [c] by congruence. clear H. cbn [hd].
    rewrite E1. n_cases.
    split; [|split; [|split; [|split]]].
    - apply orb_true_iff. left. apply N.ltb_lt. lia.
    - reflexivity.
    - reflexivity.
    - repeat constructor. lia.
    - cbn [length]. lia. }
  destruct (c <? 2048)%N eqn:E2.
  { intros H. replace b with [192 + c / 64; 128 + c mod 64]%N by congruence.
    clear H. cbn [hd]. n_cases.
    assert (H1 : (192 + c / 64 <? 128)%N = false)
      by (apply N.ltb_ge; n_div_mod).
    assert (H2 : (192 + c / 64 <? 224)%N = true)
      by (apply N.ltb_lt; n_div_mod).
    rewrite H1, H2. split; [|split; [|split; [|split]]].
    - apply orb_true_iff. left. apply N.ltb_lt. lia.
    - reflexivity.
    - unfold utf8_value. n_div_mod.
    - repeat constructor; n_div_mod.
    - cbn [length]. lia. }
  destruct (c <? 65536)%N eqn:E3.
  { destruct ((55296 <=? c)%N && (c <=? 57343)%N) eqn:E4; [discriminate|].
    intros H.
    replace b with [224 + c / 4096; 128 + (c / 64) mod 64; 128 + c mod 64]%N
      by congruence.
    clear H. cbn [hd]. n_cases.
    assert (H1 : (224 + c / 4096 <? 128)%N = false)
      by (apply N.ltb_ge; n_div_mod).
    assert (H2 : (224 + c / 4096 <? 224)%N = false)
      by (apply N.ltb_ge; n_div_mod).
    assert (H3 : (224 + c / 4096 <? 240)%N = true)
      by (apply N.ltb_lt; n_div_mod).
    rewrite H1, H2, H3. split; [|split; [|split; [|split]]].
    - apply orb_true_iff. destruct E4 as [E4|E4]; n_cases.
      + left. apply N.ltb_lt. lia.
      + right. apply andb_true_iff. split; apply N.ltb_lt; lia.
    - reflexivity.
    - unfold utf8_value. n_div_mod.
    - repeat constructor; n_div_mod.
    - cbn [length]. lia. }
  destruct (c <? 1114112)%N eqn:E4; [|discriminate].
  intros H.
  replace b with [240 + c / 262144; 128 + (c / 4096) mod 64;
                  128 + (c / 64) mod 64; 128 + c mod 64]%N by congruence.
  clear H. cbn [hd]. n_cases.
  assert (H1 : (240 + c / 262144 <? 128)%N = false)
    by (apply N.ltb_ge; n_div_mod).
  assert (H2 : (240 + c / 262144 <? 224)%N = false)
    by (apply N.ltb_ge; n_div_mod).
  assert (H3 : (240 + c / 262144 <? 240)%N = false)
    by (apply N.ltb_ge; n_div_mod).
  rewrite H1, H2, H3. split; [|split; [|split; [|split]]].
  - apply orb_true_iff. right. apply andb_true_iff.
    split; [apply N.ltb_lt; lia | reflexivity].
  - reflexivity.
  - unfold utf8_value. n_div_mod.
  - repeat constructor; n_div_mod.
  - cbn [length]. lia.
Qed.

Lemma utf8_char_none (c : char) :
  utf8_char c = None <-> is_scalar c = false.
Proof.
  split.
  - unfold utf8_char, is_scalar.
    destruct (c <? 128)%N eqn:E1; [discriminate|].
    destruct (c <? 2048)%N eqn:E2; [discriminate|].
    destruct (c <? 65536)%N eqn:E3.
    + destruct ((55296 <=? c)%N && (c <=? 57343)%N) eqn:E4; [|discriminate].
      intros _. n_cases. apply orb_false_iff. split.
      * apply N.ltb_ge. lia.
      * apply andb_false_iff. left. apply N.ltb_ge. lia.
    + destruct (c <? 1114112)%N eqn:E4; [discriminate|].
      intros _. n_cases. apply orb_false_iff. split.
      * apply N.ltb_ge. lia.
      * apply andb_false_iff. right. reflexivity.
  - intros H. destruct (utf8_char c) as [b|] eqn:E; [|reflexivity].
    apply utf8_char_some in E as [E _]. congruence.
Qed.

Lemma app_same_length {B : Type} (a a' b b' : list B) :
  a ++ b = a' ++ b' -> length a = length a' -> a = a' /\ b = b'.
Proof.
  revert a'. induction a as [|x a IH]; intros [|x' a'] H Hl;
    try discriminate.
  - now split.
  - cbn [app] in H. injection H as -> H. injection Hl as Hl.
    destruct (IH _ H Hl) as [-> ->]. now split.
Qed.

Lemma encode_utf8_cons (c : char) (s : str) (bs : bytes) :
  encode_utf8 (c :: s) = Some bs ->
  exists b r, utf8_char c = Some b /\ encode_utf8 s = Some r /\ bs = b ++ r.
Proof.
  cbn [encode_utf8]. destruct (utf8_char c) as [b|]; [|discriminate].
  destruct (encode_utf8 s) as [r|]; [|discriminate].
  intros H. exists b, r. repeat split. congruence.
Qed.

Lemma encode_utf8_some (s : str) :
  Forall (fun c => is_scalar c = true) s -> exists bs, encode_utf8 s = Some bs.
Proof.
  induction 1 as [|c s Hc _ [bs IH]]; [now exists []|].
  cbn [encode_utf8]. destruct (utf8_char c) as [b|] eqn:E.
  - rewrite IH. now exists (b ++ bs).
  - apply utf8_char_none in E. congruence.
Qed.

Lemma encode_utf8_scalar (s : str) (bs : bytes) :
  encode_utf8 s = Some bs -> Forall (fun c => is_scalar c = true) s.
Proof.
  revert bs. induction s as [|c s IH]; intros bs H; [constructor|].
  apply encode_utf8_cons in H as (b & r & Hc & Hs & _).
  constructor; [now apply utf8_char_some in Hc|now apply (IH r)].
Qed.

(** X24: make_txt_bytes fails (Python raises UnicodeEncodeError) exactly on
    a text that holds a surrogate code point, and gives bytes for every text
    of Unicode scalar values. *)
Theorem make_txt_bytes_defined (text : str) :
  (make_txt_bytes text = None <->
   Exists (fun c => is_scalar c = false) text) /\
  ((exists b, make_txt_bytes text = Some b) <->
   Forall (fun c => is_scalar c = true) text).
Proof.
  unfold make_txt_bytes.
  assert (Hall : (exists b, encode_utf8 text = Some b) <->
                 Forall (fun c => is_scalar c = true) text).
  { split; [intros [b H]; now apply encode_utf8_scalar in H|
            apply encode_utf8_some]. }
  split; [|exact Hall]. split.
  - clear Hall. induction text as [|c s IH]; [discriminate|].
    cbn [encode_utf8]. destruct (utf8_char c) as [b|] eqn:E.
    + destruct (encode_utf8 s) as [r|]; [discriminate|].
      intros _. apply Exists_cons_tl. now apply IH.
    + intros _. apply Exists_cons_hd. now apply utf8_char_none.
  - intros H. destruct (encode_utf8 text) as [b|] eqn:E; [|reflexivity].
    apply encode_utf8_scalar in E. apply Exists_exists in H as (c & Hin & Hc).
    rewrite Forall_forall in E. specialize (E c Hin). congruence.
Qed.

(** X25: what make_txt_bytes returns are bytes (numbers below 256), at
    least one and at most four for each character of the text. *)
Theorem make_txt_bytes_size (text : str) (b : bytes) :
  make_txt_bytes text = Some b ->
  Forall (fun x => (x < 256)%N) b /\
  (length text <= length b <= 4 * length text)%nat.
Proof.
  unfold make_txt_bytes. revert b.
  induction text as [|c s IH]; intros bs H.
  - injection H as <-. split; [constructor|cbn [length]; lia].
  - apply encode_utf8_cons in H as (b & r & Hc & Hs & ->).
    apply utf8_char_some in Hc as (_ & _ & _ & Hb & Hl).
    destruct (IH r Hs) as [Hr Hlr]. split.
    + apply Forall_app. now split.
    + rewrite length_app. cbn [length]. lia.
Qed.

Lemma make_txt_bytes_size_witness :
  Forall (fun x => (x < 256)%N) [195; 169; 226; 130; 172]%N /\
  (length [233; 8364]%N <= length [195; 169; 226; 130; 172]%N
   <= 4 * length [233; 8364]%N)%nat.
Proof.
  apply (make_txt_bytes_size [233; 8364]%N [195; 169; 226; 130; 172]%N).
  vm_compute. reflexivity.
Defined.

(** X26: a text of ASCII characters is exported byte for character: the
    bytes are the code points. *)
Theorem make_txt_bytes_ascii (text : str) :
  Forall (fun c => (c < 128)%N) text -> make_txt_bytes text = Some text.
Proof.
  unfold make_txt_bytes. induction 1 as [|c s Hc _ IH]; [reflexivity|].
  cbn [encode_utf8]. rewrite IH. unfold utf8_char.
  apply N.ltb_lt in Hc. now rewrite Hc.
Qed.

Lemma make_txt_bytes_ascii_witness :
  make_txt_bytes (lit "Hello, world.") = Some (lit "Hello, world.").
Proof.
  apply (make_txt_bytes_ascii (lit "Hello, world.")).
  vm_compute. repeat constructor.
Defined.

(** X27: make_txt_bytes loses nothing: two texts that are exported to the
    same bytes are the same text. *)
Theorem make_txt_bytes_injective (text text' : str) (b : bytes) :
  make_txt_bytes text = Some b -> make_txt_bytes text' = Some b ->
  text = text'.
Proof.
  unfold make_txt_bytes. revert text' b.
  induction text as [|c s IH]; intros [|c' s'] bs H H'.
  - reflexivity.
  - injection H as <-.
    apply encode_utf8_cons in H' as (b' & r' & Hc' & _ & E).
    apply utf8_char_some in Hc' as (_ & _ & _ & _ & Hl).
    destruct b'; [cbn [length] in Hl; lia|discriminate].
  - injection H' as <-.
    apply encode_utf8_cons in H as (b' & r' & Hc' & _ & E).
    apply utf8_char_some in Hc' as (_ & _ & _ & _ & Hl).
    destruct b'; [cbn [length] in Hl; lia|discriminate].
  - apply encode_utf8_cons in H as (b1 & r1 & Hc1 & Hs1 & E1).
    apply encode_utf8_cons in H' as (b2 & r2 & Hc2 & Hs2 & E2).
    apply utf8_char_some in Hc1 as (_ & Hw1 & Hv1 & _ & Hl1).
    apply utf8_char_some in Hc2 as (_ & Hw2 & Hv2 & _ & Hl2).
    assert (E : b1 ++ r1 = b2 ++ r2) by congruence.
    assert (Hh : hd 0%N b1 = hd 0%N b2).
    { destruct b1; [cbn [length] in Hl1; lia|].
      destruct b2; [cbn [length] in Hl2; lia|].
      cbn [app] in E. cbn [hd]. congruence. }
    destruct (app_same_length _ _ _ _ E) as [Eb Er]; [congruence|].
    f_equal; [congruence|]. apply (IH s' r1); congruence.
Qed.

Lemma make_txt_bytes_injective_witness :
  [233; 8364]%N = [233; 8364]%N.
Proof.
  apply (make_txt_bytes_injective [233; 8364]%N [233; 8364]%N
           [195; 169; 226; 130; 172]%N); vm_compute; reflexivity.
Defined.

(** ** quick_summarize: the sentences of the returned summary *)

Lemma lstrip_blank (s : str) :
  Forall (fun c => isspace c = true) (lstrip s) ->
  Forall (fun c => isspace c = true) s.
Proof.
  induction s as [|c s IH]; [constructor|]. cbn [lstrip].
  destruct (isspace c) eqn:E; [|trivial].
  intros H. constructor; [exact E|now apply IH].
Qed.

Lemma strip_blank (s : str) :
  strip s = [] -> Forall (fun c => isspace c = true) s.
Proof.
  unfold strip, rstrip. intros E.
  apply (f_equal (@rev char)) in E. rewrite rev_involutive in E.
  cbn [rev] in E.
  apply lstrip_blank.
  assert (H : Forall (fun c => isspace c = true) (rev (lstrip s)))
    by (apply lstrip_blank; rewrite E; constructor).
  apply Forall_rev in H. now rewrite rev_involutive in H.
Qed.

Lemma runs_blank (s : str) :
  Forall (fun c => isspace c = true) s ->
  forall cur, runs (fun c => negb (isspace c)) cur s = flush cur.
Proof.
  induction 1 as [|c s Hc _ IH]; intros cur; [reflexivity|].
  cbn [runs]. rewrite Hc. cbn [negb]. rewrite IH. apply app_nil_r.
Qed.

(** A document of 20 words or more is not blank. *)
Lemma not_short_not_blank (text : str) :
  too_short text = false -> strip text <> [].
Proof.
  intros H E. apply strip_blank in E.
  unfold too_short, split in H. rewrite (runs_blank text E) in H.
  destruct text; discriminate H.
Qed.

(** On the selecting path, chosen sentences, joined, are not the empty
    string and split into themselves. *)
Lemma chosen_join_any (text : str) (k : Z) :
  too_short text = false -> chosen_of text k <> [] ->
  join (lit " ") (List.map snd (chosen_of text k)) <> [] /\
  sents_of (join (lit " ") (List.map snd (chosen_of text k))) =
  List.map snd (chosen_of text k).
Proof.
  intros Hshort Hne.
  pose proof (not_short_not_blank text Hshort) as Hb.
  destruct (chosen_shaped text k Hb) as [H1 H2].
  assert (Hc : List.map snd (chosen_of text k) <> []).
  { intros E. now apply map_eq_nil in E. }
  destruct (join_shaped _ Hc H1) as [Hs Hn]. split.
  - now apply starts_clean_nonempty.
  - unfold sents_of. rewrite strip_fixed by assumption.
    now apply re_split_of_join.
Qed.

Lemma subseq_refl {B : Type} (l : list B) : subseq l l.
Proof. induction l; now constructor. Qed.

(** On the selecting path the sentences of the returned summary are the
    chosen sentences. *)
Lemma summary_sentences_chosen (text : str) (k : Z) :
  too_short text = false -> k < Z.of_nat (length (sents_of text)) ->
  summary_sentences (quick_summarize text k) =
  List.map snd (chosen_of text k).
Proof.
  intros Hshort Hk. rewrite quick_summarize_chosen by assumption.
  destruct (chosen_of text k) as [|c l] eqn:E; [reflexivity|].
  destruct (chosen_join_any text k Hshort) as [Hne Hs];
    [rewrite E; discriminate|].
  rewrite E in Hne, Hs. unfold summary_sentences.
  destruct (join (lit " ") (List.map snd (c :: l))); [congruence|exact Hs].
Qed.

(** The sentences of a document that is returned as it is. *)
Lemma summary_sentences_same (text : str) :
  subseq (summary_sentences text) (sents_of text).
Proof.
  unfold summary_sentences. destruct text; [apply subseq_nil_l|].
  apply subseq_refl.
Qed.

Lemma join_cons_nonempty (sep p : str) (l : list str) :
  l <> [] -> join sep (p :: l) = p ++ sep ++ join sep l.
Proof. destruct l; [congruence|reflexivity]. Qed.

Lemma join_cons_tail (sep : str) (c : list str) :
  forall s, join sep (s :: c) =
            s ++ concat (List.map (fun p => sep ++ p) c).
Proof.
  induction c as [|q c IH]; intros s.
  - cbn [join List.map concat]. now rewrite app_nil_r.
  - rewrite join_cons_cons, IH. cbn [List.map concat].
    now rewrite <- app_assoc.
Qed.

Lemma join_app_head (sep : str) (a l : list str) :
  l <> [] ->
  join sep (a ++ l) = concat (List.map (fun p => p ++ sep) a) ++ join sep l.
Proof.
  intros Hl. induction a as [|p a IH]; [reflexivity|].
  cbn [app List.map concat]. rewrite join_cons_nonempty.
  - rewrite IH. now rewrite <- !app_assoc.
  - intros E. apply app_eq_nil in E. now destruct E.
Qed.

(** C7: when the sentence at index [i1] and the sentence at a later index
    [i2] are both selected, the first stands before the second in the
    returned summary.  The chosen sentences are in the order of their
    indices, whatever their scores; the returned string is, written out,
    the chosen sentences before the first, each followed by one space, the
    first, one space, those in between, each followed by one space, the
    second, and those after it, each after one space; and cutting the
    returned string into sentences gives the chosen sentences in this
    order, the first before the second. *)
Theorem summary_keeps_order (text : str) (max_sentences : Z)
  (i1 i2 : nat) (s1 s2 : str) :
  too_short text = false ->
  max_sentences < Z.of_nat (length (sents_of text)) ->
  nth_error (sents_of text) i1 = Some s1 ->
  nth_error (sents_of text) i2 = Some s2 ->
  (i1 < i2)%nat ->
  In s1 (top_of text max_sentences) ->
  In s2 (top_of text max_sentences) ->
  StronglySorted (fun a b => (fst a < fst b)%nat)
    (chosen_of text max_sentences) /\
  exists a b c : list (nat * str),
    chosen_of text max_sentences = a ++ (i1, s1) :: b ++ (i2, s2) :: c /\
    quick_summarize text max_sentences =
      concat (List.map (fun p => snd p ++ lit " ") a) ++ s1 ++ lit " " ++
      concat (List.map (fun p => snd p ++ lit " ") b) ++ s2 ++
      concat (List.map (fun p => lit " " ++ snd p) c) /\
    sents_of (quick_summarize text max_sentences) =
      List.map snd a ++ s1 :: List.map snd b ++ s2 :: List.map snd c.
Proof.
  intros Hshort Hk H1 H2 Hlt Ht1 Ht2.
  pose proof (chosen_of_sorted text max_sentences) as Hs.
  split; [exact Hs|].
  destruct (In_split_sorted _ _ (i1, s1) (i2, s2) Hs) as (a & b & c & E).
  - now apply chosen_of_In.
  - now apply chosen_of_In.
  - exact Hlt.
  - simpl. lia.
  - intros E. injection E as E _. lia.
  - exists a, b, c. split; [exact E|].
    assert (Hm : List.map snd (chosen_of text max_sentences) =
                 List.map snd a ++ s1 :: List.map snd b
                   ++ s2 :: List.map snd c).
    { rewrite E, map_app. cbn [List.map snd]. now rewrite map_app. }
    split.
    + rewrite quick_summarize_chosen by assumption. rewrite Hm.
      rewrite join_app_head by discriminate.
      rewrite join_cons_nonempty
        by (intros E'; apply app_eq_nil in E'; now destruct E').
      rewrite join_app_head by discriminate.
      rewrite join_cons_tail. rewrite !map_map. reflexivity.
    + rewrite quick_summarize_chosen by assumption.
      destruct (chosen_join_any text max_sentences Hshort) as [_ Hj].
      * rewrite E. now destruct a.
      * now rewrite Hj.
Qed.

Lemma summary_keeps_order_witness :
  exists a b c : list (nat * str),
    chosen_of tie_text 2 =
      a ++ (1%nat, lit "eta zeta epsilon delta gamma beta alpha.")
        :: b ++ (2%nat, lit "beta alpha gamma delta epsilon zeta eta.") :: c /\
    quick_summarize tie_text 2 =
      concat (List.map (fun p => snd p ++ lit " ") a)
      ++ lit "eta zeta epsilon delta gamma beta alpha." ++ lit " "
      ++ concat (List.map (fun p => snd p ++ lit " ") b)
      ++ lit "beta alpha gamma delta epsilon zeta eta."
      ++ concat (List.map (fun p => lit " " ++ snd p) c) /\
    sents_of (quick_summarize tie_text 2) =
      List.map snd a ++ lit "eta zeta epsilon delta gamma beta alpha."
        :: List.map snd b ++ lit "beta alpha gamma delta epsilon zeta eta."
        :: List.map snd c.
Proof.
  refine (proj2 (summary_keeps_order tie_text 2 1 2 _ _ _ _ _ _ _ _ _)).
  - vm_compute. reflexivity.
  - vm_compute. reflexivity.
  - vm_compute. reflexivity.
  - vm_compute. reflexivity.
  - lia.
  - vm_compute. right. left. reflexivity.
  - vm_compute. left. reflexivity.
Defined.

(** C8: for every document and every [max_sentences], the sentences of the
    returned summary (those the returned string is cut into; none for the
    empty string) are an order-preserving sub-list of the sentences the
    document is cut into: each is one of those sentences, unchanged, hence a
    contiguous part of the document, and none occurs more often than among
    them.  On the selecting path they are exactly the chosen sentences. *)
Theorem summary_sentences_verbatim (text : str) (max_sentences : Z) :
  let ss := summary_sentences (quick_summarize text max_sentences) in
  subseq ss (sents_of text) /\
  Forall (fun s => In s (re_split_sentences (strip text))) ss /\
  Forall (fun s => occurs_in s text) ss /\
  (forall s, count_of s ss <= count_of s (sents_of text)) /\
  (too_short text = false ->
   max_sentences < Z.of_nat (length (sents_of text)) ->
   ss = List.map snd (chosen_of text max_sentences)).
Proof.
  intros ss.
  assert (Hsub : subseq ss (sents_of text)).
  { unfold ss. destruct (too_short text) eqn:Hshort.
    - rewrite quick_summarize_short by assumption.
      apply summary_sentences_same.
    - destruct (Z_le_gt_dec (Z.of_nat (length (sents_of text)))
                  max_sentences) as [Hle|Hgt].
      + rewrite quick_summarize_few by assumption.
        apply summary_sentences_same.
      + rewrite summary_sentences_chosen by (assumption || lia).
        apply chosen_of_subseq. }
  split; [exact Hsub|]. split; [|split; [|split]].
  - rewrite Forall_forall. intros s Hs.
    apply (subseq_In _ _ _ Hsub Hs).
  - rewrite Forall_forall. intros s Hs.
    apply sents_of_occurs, (subseq_In _ _ _ Hsub Hs).
  - intros s. now apply subseq_count.
  - intros Hshort Hk. now apply summary_sentences_chosen.
Qed.

Lemma summary_sentences_verbatim_witness :
  subseq (summary_sentences (quick_summarize tie_text 2)) (sents_of tie_text)
  /\ summary_sentences (quick_summarize tie_text 2) =
     List.map snd (chosen_of tie_text 2).
Proof.
  pose proof (summary_sentences_verbatim tie_text 2) as H. cbv zeta in H.
  destruct H as (Hsub & _ & _ & _ & Hsel).
  split; [exact Hsub|]. apply Hsel.
  - vm_compute. reflexivity.
  - vm_compute. reflexivity.
Defined.

(** ** Tokens made of apostrophes in the scores *)

Lemma sum_split_word (f : str -> Z) (w : str) (l : list str) :
  sum (List.map f l) =
  count_of w l * f w
  + sum (List.map f (filter (fun v => negb (str_eqb w v)) l)).
Proof.
  unfold count_of. induction l as [|v l IH]; [reflexivity|].
  cbn [List.map filter]. rewrite sum_cons, IH.
  destruct (str_eqb w v) eqn:E; cbn [negb].
  - apply str_eqb_eq in E. subst v. cbn [length].
    rewrite Nat2Z.inj_succ. lia.
  - cbn [List.map]. rewrite sum_cons. lia.
Qed.

Lemma other_tokens_nonneg (text w s : str) :
  0 <= other_tokens (freq_of text) w s.
Proof.
  unfold other_tokens. apply sum_nonneg. rewrite Forall_forall.
  intros x Hx. apply in_map_iff in Hx as (v & <- & _).
  unfold freq_of. rewrite Counter_get. apply count_of_nonneg.
Qed.

(** C10: a run of apostrophes is a token.  Standing alone it is the one
    token of the document, it is no stop word, and [top_words] returns it
    with its count.  In any document where it occurs it is counted in the
    frequency table and some [top_words] result lists it with that count.
    In the list of scores of quick_summarize, the entry of every sentence is
    the frequency of the run times the number of its occurrences in the
    sentence, plus the frequencies of the other tokens of the sentence; so
    the run adds at least its frequency, which is at least 1, to the score
    of every sentence of the document it occurs in. *)
Theorem apostrophe_run_is_token (k : nat) (text : str) (i : nat) (s : str) :
  (0 < k)%nat ->
  let w := repeat apostrophe k in
  let freq := freq_of text in
  findall_words w = [w] /\
  contains STOPWORDS (lower w) = false /\
  top_words w 1 = [(w, 1)] /\
  (In w (findall_words text) ->
   1 <= get freq w 0 /\
   get freq w 0 = count_of w (content_words text) /\
   exists n : Z, In (w, get freq w 0) (top_words text n)) /\
  (nth_error (sents_of text) i = Some s ->
   In (count_of w (lowered_words s) * get freq w 0 + other_tokens freq w s,
       i, s) (scores_of text) /\
   0 <= other_tokens freq w s /\
   (In w (findall_words s) -> 1 <= count_of w (lowered_words s))).
Proof.
  intros Hk w freq.
  assert (Hlow : forall t, In w (findall_words t) -> In w (lowered_words t)).
  { intros t Ht. unfold lowered_words. apply in_map_iff. exists w.
    split; [apply apostrophes_lower | assumption]. }
  assert (Hstop : contains STOPWORDS w = false)
    by now apply apostrophes_not_stopword.
  assert (Hg : get freq w 0 = count_of w (content_words text))
    by apply Counter_get.
  split; [now apply apostrophes_findall|].
  split; [unfold w; now rewrite apostrophes_lower|].
  split; [|split].
  - rewrite top_words_table.
    assert (E : content_words w = [w]) by now apply apostrophes_content.
    rewrite E. cbn [first_seen filter List.map].
    unfold count_of. cbn [filter]. now rewrite str_eqb_refl.
  - intros Hin.
    assert (Hc : In w (content_words text))
      by (apply content_words_In; auto).
    split; [rewrite Hg; now apply count_of_pos|].
    split; [exact Hg|].
    exists (Z.of_nat (length (first_seen (content_words text)))).
    rewrite top_words_table, Hg, firstn_all2.
    + unfold sorted_by_key. apply sort_In. apply in_map_iff. exists w.
      split; [reflexivity | now apply first_seen_In].
    + unfold sorted_by_key. rewrite sort_length, length_map. lia.
  - intros Hs. split; [|split].
    + apply scores_of_In. split; [exact Hs|].
      cbn [score_part sentence_part]. unfold score_of, other_tokens.
      symmetry. apply (sum_split_word (fun v => get freq v 0)).
    + apply other_tokens_nonneg.
    + intros Hin. now apply count_of_pos, Hlow.
Qed.

Lemma apostrophe_run_is_token_witness :
  too_short apostrophe_text = false /\
  1 <= get (freq_of apostrophe_text) (lit "'''") 0 /\
  get (freq_of apostrophe_text) (lit "'''") 0 = 3 /\
  In (2 * 3 + 6, 0%nat, lit "The ''' mark is odd and the ''' mark is rare.")
    (scores_of apostrophe_text) /\
  1 <= count_of (lit "'''")
         (lowered_words
            (lit "The ''' mark is odd and the ''' mark is rare.")) /\
  quick_summarize apostrophe_text 1 =
  lit "The ''' mark is odd and the ''' mark is rare.".
Proof.
  pose proof (apostrophe_run_is_token 3 apostrophe_text 0
                (lit "The ''' mark is odd and the ''' mark is rare.")
                ltac:(lia)) as H.
  cbv zeta in H. destruct H as (_ & _ & _ & Hdoc & Hsent).
  assert (Hw : In (repeat apostrophe 3) (findall_words apostrophe_text))
    by (vm_compute; right; left; reflexivity).
  destruct (Hdoc Hw) as (Hc & _ & _).
  assert (Hi : nth_error (sents_of apostrophe_text) 0 =
               Some (lit "The ''' mark is odd and the ''' mark is rare."))
    by (vm_compute; reflexivity).
  destruct (Hsent Hi) as (Hin & _ & Hcount).
  assert (Hs : In (repeat apostrophe 3)
                 (findall_words
                    (lit "The ''' mark is odd and the ''' mark is rare.")))
    by (vm_compute; right; left; reflexivity).
  split; [vm_compute; reflexivity|].
  split; [exact Hc|].
  split; [vm_compute; reflexivity|].
  split; [|split; [exact (Hcount Hs)|vm_compute; reflexivity]].
  assert (E : (2 * 3 + 6, 0%nat,
               lit "The ''' mark is odd and the ''' mark is rare.") =
              (count_of (repeat apostrophe 3)
                 (lowered_words
                    (lit "The ''' mark is odd and the ''' mark is rare."))
               * get (freq_of apostrophe_text) (repeat apostrophe 3) 0
               + other_tokens (freq_of apostrophe_text) (repeat apostrophe 3)
                   (lit "The ''' mark is odd and the ''' mark is rare."),
               0%nat, lit "The ''' mark is odd and the ''' mark is rare."))
    by (vm_compute; reflexivity).
  rewrite E. exact Hin.
Defined.

(** ** The paragraphs of the DOCX export: the loop *)







(** A text of two lines is saved as two paragraphs; a text that holds the
    control character U+0007 makes the export raise. *)
Example docx_paragraphs_scenarios :
  docx_paragraphs (lit "One." ++ [10%N] ++ lit "Two.") =
    Some [lit "One."; lit "Two."] /\
  docx_paragraphs (lit "One." ++ [10%N; 7%N] ++ lit "Two.") = None.
Proof. split; vm_compute; reflexivity. Qed.
